(** * woopy: signing, REST headers and the WebSocket listener

    A shallow embedding of [woopy.py] (and of its packaged twin
    [woopy/__init__.py], which has the same function bodies).

    Python values are represented as follows.
    - [str] is a Rocq [string] holding the UTF-8 encoding of the text, so
      [bytes(s, "utf-8")] is the identity on the underlying bytes and the
      code-point order Python uses to compare strings is the byte order of
      [String.compare].
    - [int] is [Z].
    - a [dict] is an association list in insertion order (keys unique).
    - an exception is a value of [exn]; a call that can raise returns a
      [result]. *)

From Stdlib Require Import ZArith List String Ascii Bool Lia Permutation Sorted.
From Stdlib Require Import OrderedTypeEx DecimalString DecimalPos DecimalZ.
Import ListNotations.

Local Open Scope Z_scope.

(** ** Bytes and 32-bit words *)

Module Bytes.

Definition byte_of_ascii (c : ascii) : Z := Z.of_N (N_of_ascii c).

Definition ascii_of_byte (b : Z) : ascii := ascii_of_N (Z.to_N b).

Fixpoint of_string (s : string) : list Z :=
  match s with
  | EmptyString => []
  | String c s' => byte_of_ascii c :: of_string s'
  end.

Definition hex_digit (n : Z) : ascii :=
  if n <? 10 then ascii_of_byte (48 + n) else ascii_of_byte (87 + n).

(** [bytes.hex()]: two lowercase digits per byte. *)
Fixpoint hex (bs : list Z) : string :=
  match bs with
  | [] => EmptyString
  | b :: bs' => String (hex_digit (b / 16)) (String (hex_digit (b mod 16)) (hex bs'))
  end.

(** Big-endian bytes of a word of [n] bytes. *)
Fixpoint be_bytes (n : nat) (x : Z) : list Z :=
  match n with
  | O => []
  | S n' => (Z.shiftr x (8 * Z.of_nat n')) mod 256 :: be_bytes n' x
  end.

Fixpoint be_word (bs : list Z) (acc : Z) : Z :=
  match bs with
  | [] => acc
  | b :: bs' => be_word bs' (Z.lor (Z.shiftl acc 8) b)
  end.

End Bytes.

(** ** SHA-256 (FIPS 180-4), the [hashlib.sha256] the signer is keyed to *)

Module Sha256.

Definition w32 (x : Z) : Z := Z.land x 0xffffffff.

Definition add32 (x y : Z) : Z := w32 (x + y).

Definition rotr (n x : Z) : Z :=
  Z.lor (Z.shiftr x n) (w32 (Z.shiftl x (32 - n))).

Definition Ch (x y z : Z) : Z :=
  Z.lxor (Z.land x y) (Z.land (Z.lxor x 0xffffffff) z).

Definition Maj (x y z : Z) : Z :=
  Z.lxor (Z.lxor (Z.land x y) (Z.land x z)) (Z.land y z).

Definition Sigma0 (x : Z) : Z := Z.lxor (Z.lxor (rotr 2 x) (rotr 13 x)) (rotr 22 x).
Definition Sigma1 (x : Z) : Z := Z.lxor (Z.lxor (rotr 6 x) (rotr 11 x)) (rotr 25 x).
Definition sigma0 (x : Z) : Z := Z.lxor (Z.lxor (rotr 7 x) (rotr 18 x)) (Z.shiftr x 3).
Definition sigma1 (x : Z) : Z := Z.lxor (Z.lxor (rotr 17 x) (rotr 19 x)) (Z.shiftr x 10).

(** The first primes, by trial division. *)
Definition is_prime (n : Z) : bool :=
  forallb (fun d => negb (n mod Z.of_nat d =? 0)) (seq 2 (Z.to_nat n - 2)).

Definition primes_below (bound : nat) : list Z :=
  filter is_prime (map Z.of_nat (seq 2 (bound - 2))).

(** Integer cube root, one bit at a time from bit [bits - 1] down. *)
Fixpoint cube_root (bits : nat) (n r : Z) : Z :=
  match bits with
  | O => r
  | S b =>
      let c := r + 2 ^ Z.of_nat b in
      cube_root b n (if c * c * c <=? n then c else r)
  end.

(** The round constants: the first 32 bits of the fractional parts of the
    cube roots of the first 64 primes. *)
Definition K : list Z :=
  Eval vm_compute in
    map (fun p => w32 (cube_root 40 (p * 2 ^ 96) 0)) (primes_below 312).

(** The initial hash value: the first 32 bits of the fractional parts of the
    square roots of the first 8 primes. *)
Definition H0 : list Z :=
  Eval vm_compute in
    map (fun p => w32 (Z.sqrt (p * 2 ^ 64))) (primes_below 20).

(** Padding: a 1 bit, zeros up to 56 mod 64, the bit length on 8 bytes. *)
Definition pad (msg : list Z) : list Z :=
  let len := Z.of_nat (List.length msg) in
  let zeros := Z.to_nat ((55 - len) mod 64) in
  msg ++ [0x80] ++ repeat 0 zeros ++ Bytes.be_bytes 8 (8 * len).

(** The sixteen big-endian words of a 64-byte block. *)
Fixpoint words (n : nat) (block : list Z) : list Z :=
  match n with
  | O => []
  | S n' => Bytes.be_word (firstn 4 block) 0 :: words n' (skipn 4 block)
  end.

(** Message schedule, most recent word first. *)
Fixpoint schedule (n : nat) (rev_w : list Z) : list Z :=
  match n with
  | O => rev_w
  | S n' =>
      let w := add32 (add32 (sigma1 (nth 1 rev_w 0)) (nth 6 rev_w 0))
                     (add32 (sigma0 (nth 14 rev_w 0)) (nth 15 rev_w 0)) in
      schedule n' (w :: rev_w)
  end.

Record regs := Regs { ra : Z; rb : Z; rc : Z; rd : Z; re : Z; rf : Z; rg : Z; rh : Z }.

Definition round (r : regs) (kw : Z * Z) : regs :=
  let '(k, w) := kw in
  let t1 := add32 (add32 (add32 (rh r) (Sigma1 (re r))) (add32 (Ch (re r) (rf r) (rg r)) k)) w in
  let t2 := add32 (Sigma0 (ra r)) (Maj (ra r) (rb r) (rc r)) in
  Regs (add32 t1 t2) (ra r) (rb r) (rc r) (add32 (rd r) t1) (re r) (rf r) (rg r).

Definition regs_of (h : list Z) : regs :=
  Regs (nth 0 h 0) (nth 1 h 0) (nth 2 h 0) (nth 3 h 0)
       (nth 4 h 0) (nth 5 h 0) (nth 6 h 0) (nth 7 h 0).

Definition list_of (r : regs) : list Z :=
  [ra r; rb r; rc r; rd r; re r; rf r; rg r; rh r].

Definition compress (h : list Z) (block : list Z) : list Z :=
  let w := rev (schedule 48 (rev (words 16 block))) in
  let r := fold_left round (combine K w) (regs_of h) in
  map (fun p => add32 (fst p) (snd p)) (combine h (list_of r)).

Fixpoint blocks (n : nat) (h : list Z) (data : list Z) : list Z :=
  match n with
  | O => h
  | S n' => blocks n' (compress h (firstn 64 data)) (skipn 64 data)
  end.

Definition digest (msg : list Z) : list Z :=
  let p := pad msg in
  flat_map (Bytes.be_bytes 4) (blocks (Nat.div (List.length p) 64) H0 p).

End Sha256.

(** ** HMAC (RFC 2104) over SHA-256: [hmac.new(key, msg, hashlib.sha256)] *)

Module Hmac.

Definition block_size : nat := 64.

Definition block_key (key : list Z) : list Z :=
  let k := if Nat.ltb block_size (List.length key) then Sha256.digest key else key in
  k ++ repeat 0 (block_size - List.length k)%nat.

Definition xor_pad (p : Z) (k : list Z) : list Z := map (Z.lxor p) k.

Definition digest (key msg : list Z) : list Z :=
  let k := block_key key in
  Sha256.digest (xor_pad 0x5c k ++ Sha256.digest (xor_pad 0x36 k ++ msg)).

Definition hexdigest (key msg : list Z) : string := Bytes.hex (digest key msg).

End Hmac.

(** ** Python values *)

Local Open Scope string_scope.

Inductive exn : Type :=
| ValueError (msg : string)
| TypeError (msg : string)
| JSONDecodeError                 (* raised by [json.loads]; a [ValueError] subclass *)
| ConnectionClosed                (* [websockets.exceptions.ConnectionClosed] *)
| OtherException (name : string)  (* any other subclass of [Exception] *)
| CancelledError.                 (* a [BaseException] that is not an [Exception] *)

Inductive result (A : Type) : Type :=
| Ok (a : A)
| Raise (e : exn).

Arguments Ok {A} a.
Arguments Raise {A} e.

Definition bind {A B : Type} (r : result A) (k : A -> result B) : result B :=
  match r with
  | Ok a => k a
  | Raise e => Raise e
  end.

Notation "x <- r ;; k" := (bind r (fun x => k))
  (at level 61, r at next level, right associativity).

(** The values a keyword parameter of a REST call may hold; an object of any
    other type is given by the text [format] produces for it. *)
Inductive pyval : Type :=
| PStr (s : string)
| PInt (n : Z)
| PBool (b : bool)
| PNone
| PObject (text : string).

Definition dict (V : Type) : Type := list (string * V).

Definition keys {V : Type} (d : dict V) : list string := map fst d.

(** [d.get(key)] *)
Fixpoint dict_get {V : Type} (d : dict V) (key : string) : option V :=
  match d with
  | [] => None
  | (k, v) :: d' => if String.eqb k key then Some v else dict_get d' key
  end.

(** [str(n)] for an [int]. *)
Definition str_int (n : Z) : string := NilZero.string_of_int (Z.to_int n).

(** [f'{value}'] *)
Definition format (value : pyval) : string :=
  match value with
  | PStr s => s
  | PInt n => str_int n
  | PBool true => "True"
  | PBool false => "False"
  | PNone => "None"
  | PObject text => text
  end.

(** [sub in s] for two strings. *)
Fixpoint contains (sub s : string) : bool :=
  String.prefix sub s ||
  match s with
  | EmptyString => false
  | String _ s' => contains sub s'
  end.

(** [s.upper()] on ASCII text (all a hex digest holds). *)
Definition upper_char (c : ascii) : ascii :=
  let n := Bytes.byte_of_ascii c in
  if ((97 <=? n) && (n <=? 122))%Z then Bytes.ascii_of_byte (n - 32) else c.

Fixpoint upper (s : string) : string :=
  match s with
  | EmptyString => EmptyString
  | String c s' => String (upper_char c) (upper s')
  end.

(** [sorted(params.items())]: the keys of a dict are distinct, so the order
    of the pairs is the order of their keys; the sort is stable. *)
Fixpoint insert_item {V : Type} (kv : string * V) (l : dict V) : dict V :=
  match l with
  | [] => [kv]
  | kv' :: l' =>
      if String.leb (fst kv) (fst kv') then kv :: l else kv' :: insert_item kv l'
  end.

Definition sorted {V : Type} (items : dict V) : dict V :=
  fold_right insert_item [] items.

(** Passing [**kwargs] to a function whose own parameters [names] are already
    bound positionally: the first keyword that is also a parameter name is a
    [TypeError]. *)
Definition bind_kwargs {V : Type} (fname : string) (names : list string)
           (kwargs : dict V) : result unit :=
  match find (fun kv => existsb (String.eqb (fst kv)) names) kwargs with
  | Some (k, _) =>
      Raise (TypeError (fname ++ "() got multiple values for argument '" ++ k ++ "'"))
  | None => Ok tt
  end.

(** ** The signer and the REST helpers *)

(** The message that is signed (the local [msg] of [_get_signature]). *)
Definition signed_message (time_ms : Z) (sorted_params : dict pyval) : string :=
  let query_string :=
    String.concat "&" (map (fun '(key, value) => key ++ "=" ++ format value) sorted_params) in
  query_string ++ "|" ++ str_int time_ms.

Definition _get_signature (time_ms : Z) (woo_secret : string)
           (sorted_params : dict pyval) : string :=
  let msg := signed_message time_ms sorted_params in
  let bytes_key := Bytes.of_string woo_secret in
  let bytes_msg := Bytes.of_string msg in
  upper (Hmac.hexdigest bytes_key bytes_msg).

(** [clock_ms] is the value of [int(time.time() * 1000)] when the function
    runs. *)
Definition _get_headers (woo_key woo_secret : string) (params : dict pyval)
           (clock_ms : Z) : result (dict string) :=
  let sorted_params := sorted params in
  let time_ms := clock_ms in
  _ <- bind_kwargs "_get_signature" ["time_ms"; "woo_secret"] sorted_params ;;
  Ok [ ("Content-Type", "application/x-www-form-urlencoded");
       ("x-api-key", woo_key);
       ("x-api-signature", _get_signature time_ms woo_secret sorted_params);
       ("x-api-timestamp", str_int time_ms) ].

Definition _headers (url : string) (woo_key woo_secret : option string)
           (params : dict pyval) (clock_ms : Z) : result (dict string) :=
  if contains "public" url then Ok []
  else
    match woo_key with
    | None => Raise (ValueError ("The API Key is required for the private endpoint " ++ url ++ "."))
    | Some key =>
        match woo_secret with
        | None => Raise (ValueError ("The API Secret is required for the private endpoint " ++ url ++ "."))
        | Some secret =>
            _ <- bind_kwargs "_get_headers" ["woo_key"; "woo_secret"] params ;;
            _get_headers key secret params clock_ms
        end
    end.

(** What is handed to [requests]: the response is outside the model. *)
Inductive http_method : Type := GET | POST | DELETE.

Record request : Type := Request {
  req_method : http_method;
  req_url : string;
  req_params : dict pyval;
  req_headers : dict string
}.

(** In each helper the call [_headers(url, woo_key, woo_secret, **params)] is
    evaluated first, as an argument of the [requests] call. *)
Definition get (url : string) (woo_key woo_secret : option string)
           (params : dict pyval) (clock_ms : Z) : result request :=
  _ <- bind_kwargs "_headers" ["url"; "woo_key"; "woo_secret"] params ;;
  headers <- _headers url woo_key woo_secret params clock_ms ;;
  Ok (Request GET url params headers).

Definition post (url : string) (woo_key woo_secret : option string)
           (params : dict pyval) (clock_ms : Z) : result request :=
  _ <- bind_kwargs "_headers" ["url"; "woo_key"; "woo_secret"] params ;;
  headers <- _headers url woo_key woo_secret params clock_ms ;;
  Ok (Request POST url params headers).

Definition delete (url : string) (woo_key woo_secret : option string)
           (params : dict pyval) (clock_ms : Z) : result request :=
  _ <- bind_kwargs "_headers" ["url"; "woo_key"; "woo_secret"] params ;;
  headers <- _headers url woo_key woo_secret params clock_ms ;;
  Ok (Request DELETE url params headers).

(** ** JSON values and the WebSocket listener *)

(** What [json.loads] returns and [json.dumps] accepts.  A float is kept as
    its literal: the listener only ever compares a value with a string. *)
#[local] Set Warnings "-register-all".
Inductive json : Type :=
| JNull
| JBool (b : bool)
| JInt (n : Z)
| JFloat (literal : string)
| JStr (s : string)
| JList (items : list json)
| JDict (d : list (string * json)).
#[local] Set Warnings "register-all".

(** [isinstance(obj, dict) and obj.get('event') == 'ping'] *)
Definition is_ping (obj : json) : bool :=
  match obj with
  | JDict d =>
      match dict_get d "event" with
      | Some (JStr s) => String.eqb s "ping"
      | _ => false
      end
  | _ => false
  end.

Definition auth_object (woo_key sign timestamp : string) : json :=
  JDict [ ("event", JStr "auth");
          ("params", JDict [ ("apikey", JStr woo_key);
                             ("sign", JStr sign);
                             ("timestamp", JStr timestamp) ]) ].

Definition subscribe_object (topic : string) : json :=
  JDict [ ("topic", JStr topic); ("event", JStr "subscribe") ].

Definition pong_object : json := JDict [ ("event", JStr "pong") ].

(** One awaited network operation as the environment answers it: the clock
    reading [int(time.time() * 1000)] when the operation is issued, and what
    the operation returns or raises (the text of the frame for [recv]; the
    value is not used for [connect] and [send]). *)
Record io : Type := IO {
  clock_ms : Z;
  outcome : result string
}.

(** What an observer of one listener sees. *)
Inductive event : Type :=
| Connected (url : string)                  (* [connect(url)] yielded a websocket *)
| ConnectFailed (url : string) (e : exn)
| Sent (frame : string)                     (* [websocket.send(frame)] returned *)
| SendFailed (frame : string) (e : exn)
| Received (frame : string)                 (* [websocket.recv()] returned *)
| RecvFailed (e : exn)
| Put (obj : json)                          (* [msg_queue.put(obj)] *)
| LogClosed (url : string) (e : exn)        (* warning: connection closed *)
| LogRestart (e : exn).                     (* warning: restarting *)

(** The environment lets the operation through. *)
Definition succeeds (i : io) : Prop := exists x, outcome i = Ok x.

Definition is_put (ev : event) : bool :=
  match ev with Put _ => true | _ => false end.

Definition is_received (ev : event) : bool :=
  match ev with Received _ => true | _ => false end.

(** Where the listener is suspended: the operation it awaits next. *)
Inductive state : Type :=
| Connecting                                   (* [connect(url)] *)
| Authenticating (woo_key woo_secret : string) (* [send(_get_auth_message(...))] *)
| Subscribing (topic : string) (rest : list string)
| Receiving                                    (* [websocket.recv()] *)
| Ponging                                      (* [send(json.dumps({'event': 'pong'}))] *)
| Cancelled.                                   (* left by a [BaseException] *)

Section Listener.

(** [json.dumps] and [json.loads] ([None] when it raises). *)
Variable json_dumps : json -> string.
Variable json_loads : string -> option json.

Definition _get_auth_message (woo_key woo_secret : string) (clock_ms : Z) : string :=
  let time_ms := clock_ms in
  json_dumps (auth_object woo_key (_get_signature time_ms woo_secret []) (str_int time_ms)).

(** The arguments of [_listener]; [topics] is a collection that can be
    iterated again on every connection (a list, a tuple, a set). *)
Variable url : string.
Variable topics : list string.
Variable woo_key woo_secret : option string.

(** [except Exception] of the outer [try]: log and loop. *)
Definition outer_except (e : exn) : list event * state :=
  match e with
  | CancelledError => ([], Cancelled)
  | _ => ([LogRestart e], Connecting)
  end.

(** An exception raised inside the inner [try]: [ConnectionClosed] is
    logged and the [async for] moves on to a new websocket; anything else
    reaches the outer handler. *)
Definition inner_except (e : exn) : list event * state :=
  match e with
  | ConnectionClosed => ([LogClosed url e], Connecting)
  | _ => outer_except e
  end.

(** [for topic in topics: await websocket.send(...)], then the receive loop. *)
Definition subscribing (remaining : list string) : state :=
  match remaining with
  | [] => Receiving
  | topic :: rest => Subscribing topic rest
  end.

Definition after (evs : list event) (r : list event * state) : list event * state :=
  ((evs ++ fst r)%list, snd r).

(** One awaited operation of [_listener] and the code that runs up to the
    next one. *)
Definition step (s : state) (i : io) : list event * state :=
  match s with
  | Connecting =>
      match outcome i with
      | Raise e => after [ConnectFailed url e] (outer_except e)
      | Ok _ =>
          if contains "private" url then
            match woo_key with
            | None =>
                after [Connected url]
                  (inner_except (ValueError
                     ("The API Key is required for the private endpoint " ++ url ++ ".")))
            | Some key =>
                match woo_secret with
                | None =>
                    after [Connected url]
                      (inner_except (ValueError
                         ("The API Secret is required for the private endpoint " ++ url ++ ".")))
                | Some secret => ([Connected url], Authenticating key secret)
                end
            end
          else ([Connected url], subscribing topics)
      end
  | Authenticating key secret =>
      let frame := _get_auth_message key secret (clock_ms i) in
      match outcome i with
      | Raise e => after [SendFailed frame e] (inner_except e)
      | Ok _ => ([Sent frame], subscribing topics)
      end
  | Subscribing topic rest =>
      let frame := json_dumps (subscribe_object topic) in
      match outcome i with
      | Raise e => after [SendFailed frame e] (inner_except e)
      | Ok _ => ([Sent frame], subscribing rest)
      end
  | Receiving =>
      match outcome i with
      | Raise e => after [RecvFailed e] (inner_except e)
      | Ok msg =>
          match json_loads msg with
          | None => after [Received msg] (inner_except JSONDecodeError)
          | Some obj =>
              if is_ping obj then ([Received msg], Ponging)
              else ([Received msg; Put obj], Receiving)
          end
      end
  | Ponging =>
      let frame := json_dumps pong_object in
      match outcome i with
      | Raise e => after [SendFailed frame e] (inner_except e)
      | Ok _ => ([Sent frame], Receiving)
      end
  | Cancelled => ([], Cancelled)
  end.

(** The listener run against the answers of the environment, one per
    awaited operation, from the state [s]. *)
Fixpoint run (s : state) (script : list io) : list event * state :=
  match script with
  | [] => ([], s)
  | i :: script' => after (fst (step s i)) (run (snd (step s i)) script')
  end.

(** [_listener(url, topics, msg_queue, woo_key, woo_secret)]: what the
    listener does while the environment answers [script]. *)
Definition _listener (script : list io) : list event :=
  fst (run Connecting script).

(** The objects delivered to [msg_queue], in order. *)
Fixpoint output (tr : list event) : list json :=
  match tr with
  | [] => []
  | Put obj :: tr' => obj :: output tr'
  | _ :: tr' => output tr'
  end.

(** *** Vocabulary of the properties *)

(** After an exception the listener is back at [connect], or gone. *)
Definition restarted (r : list event * state) : Prop :=
  (snd r = Connecting \/ snd r = Cancelled)
  /\ forallb (fun e => negb (is_put e)) (fst r) = true
  /\ forallb (fun e => negb (is_received e)) (fst r) = true.

Definition attempt_only (ev : event) : Prop :=
  match ev with
  | Connected _ | ConnectFailed _ _ | LogRestart _ => True
  | _ => False
  end.

(** Nothing but connection attempts and warnings, and each connection that
    is established is given up at once with a [ValueError]. *)
Definition refused (tr : list event) : Prop :=
  Forall attempt_only tr
  /\ forall pre post, tr = (pre ++ Connected url :: post)%list ->
       exists msg post', post = LogRestart (ValueError msg) :: post'.

(** The next thing on the wire is a read (or the trace stops here). *)
Definition starts_with_read (tr : list event) : Prop :=
  tr = []
  \/ (exists msg tl, tr = Received msg :: tl)
  \/ (exists e tl, tr = RecvFailed e :: tl).

(** One pong, then the next read; or the pong could not be sent. *)
Definition one_pong_then_read (tr : list event) : Prop :=
  tr = []
  \/ (exists tl, tr = Sent (json_dumps pong_object) :: tl /\ starts_with_read tl)
  \/ (exists e tl, tr = SendFailed (json_dumps pong_object) e :: tl).

(** What follows the reception of a frame that decodes to [obj]. *)
Definition answered (obj : json) (post : list event) : Prop :=
  if is_ping obj then one_pong_then_read post
  else exists post', post = Put obj :: post'.

Definition subscribe_frames (ts : list string) : list string :=
  map (fun topic => json_dumps (subscribe_object topic)) ts.

(** The frames of a full handshake: the auth frame first when the URL
    contains [private], then one subscribe frame per topic. *)
Definition handshake_frames (frames : list string) : Prop :=
  if contains "private" url then
    exists key secret t,
      woo_key = Some key /\ woo_secret = Some secret
      /\ frames = _get_auth_message key secret t :: subscribe_frames topics
  else frames = subscribe_frames topics.

(** What the receive loop does on a live connection. *)
Definition streaming (ev : event) : Prop :=
  match ev with
  | Received _ | Put _ => True
  | Sent frame => frame = json_dumps pong_object
  | _ => False
  end.

(** [pre] ends with a connection on which the full handshake was sent and
    which has only streamed since. *)
Definition handshake_done (pre : list event) : Prop :=
  exists pre1 frames pre2,
    pre = (pre1 ++ Connected url :: map Sent frames ++ pre2)%list
    /\ handshake_frames frames
    /\ Forall streaming pre2.

(** The frames still to be sent on the current connection. *)
Definition pending (s : state) (frames : list string) : Prop :=
  match s with
  | Authenticating key secret =>
      exists t, frames = _get_auth_message key secret t :: subscribe_frames topics
  | Subscribing topic rest => frames = subscribe_frames (topic :: rest)
  | Receiving | Ponging => frames = []
  | Connecting | Cancelled => False
  end.

(** [pre] completes the handshake of the current connection and streams. *)
Definition completes (s : state) (pre : list event) : Prop :=
  exists frames pre2,
    pending s frames /\ pre = (map Sent frames ++ pre2)%list /\ Forall streaming pre2.

(** The listener holds a websocket. *)
Definition connected (s : state) : Prop :=
  match s with
  | Authenticating _ _ | Subscribing _ _ | Receiving | Ponging => True
  | Connecting | Cancelled => False
  end.

End Listener.

(** ** Vocabulary of the properties of the signer *)

Definition key_le {V : Type} (a b : string * V) : Prop := String.leb (fst a) (fst b) = true.

(** [occurs c s]: the character [c] occurs in [s]. *)
Fixpoint occurs (c : ascii) (s : string) : bool :=
  match s with
  | EmptyString => false
  | String c' s' => Ascii.eqb c c' || occurs c s'
  end.

Definition digit_or_minus (c : ascii) : bool :=
  Ascii.eqb c "-" || ((48 <=? Bytes.byte_of_ascii c) && (Bytes.byte_of_ascii c <=? 57))%Z.

Fixpoint all_chars (f : ascii -> bool) (s : string) : bool :=
  match s with
  | EmptyString => true
  | String c s' => f c && all_chars f s'
  end.

(** The canonical string in the words of the specification:
    [key1=value1&key2=value2...|timestampMillis], the parameter part empty
    when there are no parameters. *)
Fixpoint canonical_params (params : dict pyval) : string :=
  match params with
  | [] => ""
  | (key, value) :: rest =>
      match rest with
      | [] => key ++ "=" ++ format value
      | _ :: _ => key ++ "=" ++ format value ++ "&" ++ canonical_params rest
      end
  end.

Definition canonical_string (params : dict pyval) (timestamp : Z) : string :=
  canonical_params params ++ "|" ++ str_int timestamp.

(** Uppercase hexadecimal rendering, in the words of the specification. *)
Definition upper_hex_digit (n : Z) : ascii :=
  nth (Z.to_nat n) (list_ascii_of_string "0123456789ABCDEF") "0"%char.

Fixpoint upper_hex (bs : list Z) : string :=
  match bs with
  | [] => EmptyString
  | b :: bs' => String (upper_hex_digit (b / 16)) (String (upper_hex_digit (b mod 16)) (upper_hex bs'))
  end.

Definition is_byte (b : Z) : Prop := (0 <= b < 256)%Z.

Definition hex_value (c : ascii) : Z :=
  let n := Bytes.byte_of_ascii c in
  if (n <=? 57)%Z then (n - 48)%Z else (n - 55)%Z.

(** The text of the values as they are signed. *)
Definition formatted_values (params : dict pyval) : list string :=
  map (fun kv => format (snd kv)) params.

(** No value, once formatted, contains the separator [&]. *)
Definition separator_free (params : dict pyval) : Prop :=
  Forall (fun v => occurs "&" v = false) (formatted_values params).

(** The parameter names a REST helper cannot be given ([url], [woo_key] and
    [woo_secret] are its own parameters). *)
Definition own_names : list string := ["url"; "woo_key"; "woo_secret"].

(** ** A scripted server

    The properties of the listener hold for every [json.dumps] and
    [json.loads].  To run the listener on examples, the frames are written by a
    serialiser that is exact on the values the examples send (ASCII text
    without quotes or backslashes), and read by a decoder that knows the two
    frames the scripted server sends. *)

Definition quote : string := String (ascii_of_nat 34) EmptyString.

Fixpoint example_dumps (v : json) : string :=
  match v with
  | JNull => "null"
  | JBool true => "true"
  | JBool false => "false"
  | JInt n => str_int n
  | JFloat literal => literal
  | JStr s => quote ++ s ++ quote
  | JList items => "[" ++ String.concat ", " (map example_dumps items) ++ "]"
  | JDict d =>
      "{" ++ String.concat ", "
               (map (fun '(k, v) => quote ++ k ++ quote ++ ": " ++ example_dumps v) d)
          ++ "}"
  end.

Definition ping_object : json := JDict [ ("event", JStr "ping"); ("ts", JInt 1700000000500) ].

Definition trade_object : json :=
  JDict [ ("topic", JStr "SPOT_BTC_USDT@trade");
          ("data", JDict [ ("price", JInt 35000); ("side", JStr "BUY") ]) ].

Definition example_loads (msg : string) : option json :=
  if String.eqb msg (example_dumps ping_object) then Some ping_object
  else if String.eqb msg (example_dumps trade_object) then Some trade_object
  else None.

Definition stream_url : string := "wss://wss.woo.org/ws/stream/app".
Definition private_url : string := "wss://wss.woo.org/v2/ws/private/stream/app".

(** [connect] succeeds, the subscription is sent, a trade arrives, then a
    ping, the pong is sent, and another trade arrives. *)
Definition ping_script : list io :=
  [ IO 1700000000000 (Ok "");
    IO 1700000000010 (Ok "");
    IO 1700000000020 (Ok (example_dumps trade_object));
    IO 1700000000030 (Ok (example_dumps ping_object));
    IO 1700000000040 (Ok "");
    IO 1700000000050 (Ok (example_dumps trade_object)) ].

(** A connection that streams one trade, and the read that finds it closed. *)
Definition stream_script : list io :=
  [ IO 1700000000000 (Ok "");
    IO 1700000000010 (Ok "");
    IO 1700000000020 (Ok "");
    IO 1700000000030 (Ok (example_dumps trade_object)) ].

Definition closed_read : io := IO 1700000000040 (Raise ConnectionClosed).

(** ** Further vocabulary of the signer and of the listener *)

(** A character of an uppercase hexadecimal numeral. *)
Definition is_upper_hex_char (c : ascii) : bool :=
  existsb (Ascii.eqb c) (list_ascii_of_string "0123456789ABCDEF").

(** An awaited network operation, as the observer sees it. *)
Definition is_io (ev : event) : bool :=
  match ev with
  | Connected _ | ConnectFailed _ _ | Sent _ | SendFailed _ _ | Received _ | RecvFailed _ => true
  | Put _ | LogClosed _ _ | LogRestart _ => false
  end.

Definition is_connect (ev : event) : bool :=
  match ev with
  | Connected _ | ConnectFailed _ _ => true
  | _ => false
  end.

(** No operation of the script is cancelled. *)
Definition never_cancelled (script : list io) : Prop :=
  Forall (fun i => outcome i <> Raise CancelledError) script.

(** The trace starts with a connection attempt to [url] (or is empty). *)
Definition starts_with_connect (url : string) (tr : list event) : Prop :=
  tr = []
  \/ (exists tl, tr = Connected url :: tl)
  \/ (exists e tl, tr = ConnectFailed url e :: tl).

Section ListenerVocabulary.

Variable json_dumps : json -> string.
Variable json_loads : string -> option json.
Variable url : string.
Variable topics : list string.
Variable woo_key woo_secret : option string.

(** The received frames that decode to something other than a ping, decoded,
    in the order received. *)
Definition forwarded (tr : list event) : list json :=
  flat_map (fun ev =>
              match ev with
              | Received msg =>
                  match json_loads msg with
                  | Some obj => if is_ping obj then [] else [obj]
                  | None => []
                  end
              | _ => []
              end) tr.

(** The frames of the protocol: the pong, a subscription to one of the
    topics, and on a private endpoint the auth frame of the credentials. *)
Definition sendable (frame : string) : Prop :=
  frame = json_dumps pong_object
  \/ (exists topic, In topic topics /\ frame = json_dumps (subscribe_object topic))
  \/ (contains "private" url = true
      /\ exists key secret t,
           woo_key = Some key /\ woo_secret = Some secret
           /\ frame = _get_auth_message json_dumps key secret t).

Definition sends_protocol (ev : event) : Prop :=
  match ev with
  | Sent frame | SendFailed frame _ => sendable frame
  | _ => True
  end.

(** A state the listener can be in, given its arguments. *)
Definition state_ok (s : state) : Prop :=
  match s with
  | Authenticating key secret =>
      contains "private" url = true /\ woo_key = Some key /\ woo_secret = Some secret
  | Subscribing topic rest => forall t, In t (topic :: rest) -> In t topics
  | _ => True
  end.

End ListenerVocabulary.

(** ** The aggregator and the consumer

    [_all_listeners] gathers one listener per item of [topics_by_url]; the
    listeners share the queue and the credentials.  The event loop runs one
    listener at a time, from the operation it awaits to the next: a schedule
    lists, in the order the loop takes them, which listener is resumed and
    with what answer (a cancellation is the answer [Raise CancelledError]).

    [recv_all] runs [_all_listeners] in a worker thread and polls the queue
    from the caller's thread.  The steps of the two threads are listed in
    the order they take effect: a [Get] that finds the queue empty is the
    timeout of [msg_queue.get(timeout=1)], and the end of the worker thread
    is a step of its own, whenever it comes. *)

Fixpoint set_nth {A : Type} (k : nat) (x : A) (l : list A) : list A :=
  match l, k with
  | [], _ => []
  | _ :: l', O => x :: l'
  | y :: l', S k' => y :: set_nth k' x l'
  end.

(** What one listener did, and what it was answered. *)
Definition events_of (k : nat) (tr : list (nat * event)) : list event :=
  map snd (filter (fun te => Nat.eqb (fst te) k) tr).

Definition answers_to (k : nat) (schedule : list (nat * io)) : list io :=
  map snd (filter (fun a => Nat.eqb (fst a) k) schedule).

Section Aggregator.

Variable json_dumps : json -> string.
Variable json_loads : string -> option json.
Variable topics_by_url : dict (list string).
Variable woo_key woo_secret : option string.

(** [tasks]: one listener per item, each about to connect. *)
Definition tasks : list state := map (fun _ => Connecting) topics_by_url.

(** The event loop resumes the listener at position [k] with the answer to
    the operation it awaits. *)
Definition resume (running : list state) (k : nat) (i : io) : list (nat * event) * list state :=
  match nth_error topics_by_url k, nth_error running k with
  | Some (url, topics), Some s =>
      let r := step json_dumps json_loads url topics woo_key woo_secret s i in
      (map (pair k) (fst r), set_nth k (snd r) running)
  | _, _ => ([], running)
  end.

(** [asyncio.gather] of the tasks, under a schedule. *)
Fixpoint gather (running : list state) (schedule : list (nat * io))
  : list (nat * event) * list state :=
  match schedule with
  | [] => ([], running)
  | (k, i) :: schedule' =>
      let r := resume running k i in
      let r' := gather (snd r) schedule' in
      ((fst r ++ fst r')%list, snd r')
  end.

Definition _all_listeners (schedule : list (nat * io)) : list (nat * event) :=
  fst (gather tasks schedule).

(** The worker thread of [recv_all]. *)
Inductive thread : Type := Unstarted | Alive | Ended.

(** Where the generator [recv_all] stands. *)
Inductive generator : Type :=
| NotStarted     (* the body has not run yet *)
| AtWhile        (* at [while worker.is_alive()], also after a [yield] *)
| AtGet          (* at [msg_queue.get(timeout=1)] *)
| Finished.      (* the loop is left *)

Record session : Type := Session {
  running : list state;          (* the listeners in the worker *)
  worker : thread;
  msg_queue : list json;         (* the queue, oldest first *)
  consumer : generator;
  history : list (nat * event);  (* what the listeners have done *)
  yielded : list json            (* what the generator has yielded *)
}.

(** What happens in the two threads, in the order it happens. *)
Inductive action : Type :=
| Start                      (* the first [next()]: the queue and the worker are created *)
| IsAlive                    (* the generator evaluates [worker.is_alive()] *)
| Get                        (* [msg_queue.get(timeout=1)] returns, or times out *)
| Resume (k : nat) (i : io)  (* the event loop of the worker resumes a listener *)
| Exit.                      (* the worker thread ends *)

Definition start : session := Session tasks Unstarted [] NotStarted [] [].

Definition act (ses : session) (a : action) : session :=
  match a with
  | Start =>
      match consumer ses with
      | NotStarted =>
          Session (running ses) Alive (msg_queue ses) AtWhile (history ses) (yielded ses)
      | _ => ses
      end
  | IsAlive =>
      match consumer ses with
      | AtWhile =>
          match worker ses with
          | Alive =>
              Session (running ses) (worker ses) (msg_queue ses) AtGet (history ses) (yielded ses)
          | _ =>
              Session (running ses) (worker ses) (msg_queue ses) Finished (history ses) (yielded ses)
          end
      | _ => ses
      end
  | Get =>
      match consumer ses with
      | AtGet =>
          match msg_queue ses with
          | obj :: rest =>
              Session (running ses) (worker ses) rest AtWhile (history ses)
                      (yielded ses ++ [obj])%list
          | [] =>
              Session (running ses) (worker ses) [] AtWhile (history ses) (yielded ses)
          end
      | _ => ses
      end
  | Resume k i =>
      match worker ses with
      | Alive =>
          let r := resume (running ses) k i in
          Session (snd r) Alive (msg_queue ses ++ output (map snd (fst r)))%list
                  (consumer ses) (history ses ++ fst r)%list (yielded ses)
      | _ => ses
      end
  | Exit =>
      match worker ses with
      | Alive =>
          Session (running ses) Ended (msg_queue ses) (consumer ses) (history ses) (yielded ses)
      | _ => ses
      end
  end.

Definition session_run (ses : session) (actions : list action) : session :=
  fold_left act actions ses.

(** [recv_all(topics_by_url, woo_key, woo_secret)]: what the generator
    yields while the two threads do [actions]. *)
Definition recv_all (actions : list action) : list json :=
  yielded (session_run start actions).

End Aggregator.

(** The answers the event loop delivers: those given while the worker is
    alive. *)
Fixpoint delivered (w : thread) (actions : list action) : list (nat * io) :=
  match actions with
  | [] => []
  | Start :: rest => delivered (match w with Unstarted => Alive | _ => w end) rest
  | Exit :: rest => delivered (match w with Alive => Ended | _ => w end) rest
  | Resume k i :: rest =>
      match w with
      | Alive => (k, i) :: delivered w rest
      | _ => delivered w rest
      end
  | _ :: rest => delivered w rest
  end.

(** ** Scripts for the further examples *)

(** A frame that is not JSON arrives, and the listener is let to connect
    again. *)
Definition garbage_script : list io :=
  [ IO 1700000000000 (Ok "");
    IO 1700000000010 (Ok "");
    IO 1700000000020 (Ok "not json");
    IO 1700000000030 (Ok "") ].

(** Connections that are refused or accepted, never cancelled. *)
Definition retry_script : list io :=
  [ IO 1700000000000 (Ok "");
    IO 1700000000010 (Raise (OtherException "OSError"));
    IO 1700000000020 (Ok "") ].

Definition cancel : io := IO 1700000000060 (Raise CancelledError).

(** The two endpoints of the source, and a schedule that interleaves their
    listeners: both connect and subscribe, the private one loses its
    connection while the public one receives a trade. *)
Definition two_endpoints : dict (list string) :=
  [ (stream_url, ["SPOT_BTC_USDT@trade"]); (private_url, ["positioninfo"]) ].

Definition interleaved : list (nat * io) :=
  [ (0%nat, IO 1700000000000 (Ok ""));
    (1%nat, IO 1700000000001 (Ok ""));
    (1%nat, IO 1700000000002 (Ok ""));
    (0%nat, IO 1700000000003 (Ok ""));
    (1%nat, IO 1700000000004 (Raise ConnectionClosed));
    (0%nat, IO 1700000000005 (Ok (example_dumps trade_object)));
    (1%nat, IO 1700000000006 (Ok "")) ].

(** The consumer starts, a trade reaches the queue, the worker ends, and
    only then does the generator look. *)
Definition late_consumer : list action :=
  [ Start;
    Resume 0 (IO 1700000000000 (Ok ""));
    Resume 0 (IO 1700000000010 (Ok ""));
    Resume 0 (IO 1700000000020 (Ok (example_dumps trade_object)));
    Exit;
    IsAlive ].

(** * Properties *)

(** ** Known answers *)

Example sha256_constants :
  List.length Sha256.K = 64%nat /\ nth 0 Sha256.K 0 = 0x428a2f98 /\ nth 63 Sha256.K 0 = 0xc67178f2
  /\ List.length Sha256.H0 = 8%nat /\ nth 0 Sha256.H0 0 = 0x6a09e667 /\ nth 7 Sha256.H0 0 = 0x5be0cd19.
Proof. repeat split. Qed.

Example sha256_abc :
  Bytes.hex (Sha256.digest (Bytes.of_string "abc"))
  = "ba7816bf8f01cfea414140de5dae2223b00361a396177a9cb410ff61f20015ad"%string.
Proof. vm_compute. reflexivity. Qed.

Example sha256_empty :
  Bytes.hex (Sha256.digest [])
  = "e3b0c44298fc1c149afbf4c8996fb92427ae41e4649b934ca495991b7852b855"%string.
Proof. vm_compute. reflexivity. Qed.

Example hmac_sha256_fox :
  Hmac.hexdigest (Bytes.of_string "key")
                 (Bytes.of_string "The quick brown fox jumps over the lazy dog")
  = "f7bc83f430538424b13298e6aa6fb143ef4d59a14946175997479dbc2d1a3cd8"%string.
Proof. vm_compute. reflexivity. Qed.

(** A key longer than one block is hashed first. *)
Example hmac_sha256_long_key :
  Hmac.hexdigest (repeat 107 70) (repeat 120 130)
  = "65f3828fb4164fc0fce3be71ca4cf0a8915b8e484444e7765ab030abe4c28ac0"%string.
Proof. vm_compute. reflexivity. Qed.

(** The signer against [hmac] of CPython on two inputs. *)
Example get_signature_no_params :
  _get_signature 1700000000000 "secret" []
  = "F12AAA2613E455013D93A4DB9301A97B0581537EE80A48AB82D2667999F8655A".
Proof. vm_compute. reflexivity. Qed.

Example get_signature_two_params :
  _get_signature 1700000000000 "secret" [("limit", PInt 10); ("symbol", PStr "SPOT_BTC_USDT")]
  = "5D5902B4400C5E12626C64D72D9CE0B4796455A4BF219C211E17BA3F00907F9C".
Proof. vm_compute. reflexivity. Qed.

(** ** Strings *)

Lemma leb_false_ltb (s1 s2 : string) :
  String.leb s1 s2 = false -> String_as_OT.lt s2 s1.
Proof.
  unfold String.leb. intros H.
  apply String_as_OT.cmp_lt. unfold String_as_OT.cmp.
  rewrite String.compare_antisym.
  destruct (String.compare s1 s2); simpl; congruence.
Qed.

Lemma leb_trans (s1 s2 s3 : string) :
  String.leb s1 s2 = true -> String.leb s2 s3 = true -> String.leb s1 s3 = true.
Proof.
  intros H12 H23.
  destruct (String.leb s1 s3) eqn:H13; [reflexivity | exfalso].
  apply leb_false_ltb in H13.
  assert (Hle : forall a b, String.leb a b = true -> a = b \/ String_as_OT.lt a b).
  { intros a b. unfold String.leb.
    destruct (String.compare a b) eqn:Hc; intros Hab.
    - left. now apply String.compare_eq_iff.
    - right. now apply String_as_OT.cmp_lt.
    - discriminate. }
  destruct (Hle _ _ H12) as [-> | L12]; destruct (Hle _ _ H23) as [-> | L23].
  - exact (String_as_OT.lt_not_eq _ _ H13 eq_refl).
  - exact (String_as_OT.lt_not_eq _ _ (String_as_OT.lt_trans _ _ _ H13 L23) eq_refl).
  - exact (String_as_OT.lt_not_eq _ _ (String_as_OT.lt_trans _ _ _ H13 L12) eq_refl).
  - exact (String_as_OT.lt_not_eq _ _
             (String_as_OT.lt_trans _ _ _ H13 (String_as_OT.lt_trans _ _ _ L12 L23)) eq_refl).
Qed.

Lemma append_assoc (s1 s2 s3 : string) : (s1 ++ s2) ++ s3 = s1 ++ s2 ++ s3.
Proof. induction s1; simpl; congruence. Qed.

Lemma append_inv_head (s t1 t2 : string) : s ++ t1 = s ++ t2 -> t1 = t2.
Proof. induction s; simpl; intros H; [assumption | injection H; auto]. Qed.

(** Two texts cut at a separator that neither tail contains are cut at the
    same place. *)
Lemma split_at_last (c : ascii) (q q' d d' : string) :
  occurs c d = false -> occurs c d' = false ->
  q ++ String c d = q' ++ String c d' -> q = q' /\ d = d'.
Proof.
  intros Hd Hd'. revert q'.
  induction q as [| a q IH]; intros [| a' q'] H; simpl in H.
  - injection H as H. auto.
  - injection H as Ha H. subst d.
    exfalso. clear - Hd. induction q' as [| b q' IHq]; simpl in Hd.
    + rewrite Ascii.eqb_refl in Hd. discriminate.
    + apply orb_false_iff in Hd. tauto.
  - injection H as Ha H. subst d'.
    exfalso. clear - Hd'. induction q as [| b q IHq]; simpl in Hd'.
    + rewrite Ascii.eqb_refl in Hd'. discriminate.
    + apply orb_false_iff in Hd'. tauto.
  - injection H as Ha H. destruct (IH _ H) as [-> ->]. subst. auto.
Qed.

(** Two texts cut at the first occurrence of a separator. *)
Lemma split_at_first (c : ascii) (v v' r r' : string) :
  occurs c v = false -> occurs c v' = false ->
  v ++ String c r = v' ++ String c r' -> v = v' /\ r = r'.
Proof.
  revert v'. induction v as [| a v IH]; intros [| a' v'] Hv Hv' H; simpl in *.
  - injection H as H. auto.
  - injection H as Ha H. subst a'. rewrite Ascii.eqb_refl in Hv'. discriminate.
  - injection H as Ha H. subst a. rewrite Ascii.eqb_refl in Hv. discriminate.
  - injection H as Ha H. apply orb_false_iff in Hv, Hv'.
    destruct (IH v') as [-> ->]; try tauto. subst. auto.
Qed.

(** ** Decimal rendering *)

Lemma string_of_uint_digits (d : Decimal.uint) :
  all_chars digit_or_minus (NilEmpty.string_of_uint d) = true.
Proof. induction d; simpl; auto. Qed.

Lemma str_int_digits (n : Z) : all_chars digit_or_minus (str_int n) = true.
Proof.
  unfold str_int, NilZero.string_of_int, NilZero.string_of_uint.
  destruct (Z.to_int n) as [d | d]; destruct d; simpl;
    try reflexivity; apply string_of_uint_digits.
Qed.

Lemma all_chars_occurs (f : ascii -> bool) (c : ascii) (s : string) :
  f c = false -> all_chars f s = true -> occurs c s = false.
Proof.
  intros Hc. induction s as [| a s IH]; simpl; [reflexivity |].
  intros H. apply andb_true_iff in H. destruct H as [Ha Hs].
  rewrite (IH Hs), orb_false_r.
  destruct (Ascii.eqb_spec c a); [congruence | reflexivity].
Qed.

Lemma str_int_no_bar (n : Z) : occurs "|" (str_int n) = false.
Proof.
  apply all_chars_occurs with (f := digit_or_minus);
    [reflexivity | apply str_int_digits].
Qed.

Lemma to_int_not_nil (n : Z) :
  Z.to_int n <> Decimal.Pos Decimal.Nil /\ Z.to_int n <> Decimal.Neg Decimal.Nil.
Proof.
  destruct n as [| p | p]; simpl; split; try discriminate;
    intros [= H]; exact (DecimalPos.Unsigned.to_uint_nonnil p H).
Qed.

(** [str] is injective on [int]. *)
Lemma str_int_inj (n m : Z) : str_int n = str_int m -> n = m.
Proof.
  unfold str_int. intros H.
  assert (Hn := NilZero.isi (Z.to_int n) (proj1 (to_int_not_nil n)) (proj2 (to_int_not_nil n))).
  assert (Hm := NilZero.isi (Z.to_int m) (proj1 (to_int_not_nil m)) (proj2 (to_int_not_nil m))).
  rewrite H, Hm in Hn. injection Hn as Hn.
  symmetry. now apply DecimalZ.to_int_inj.
Qed.

(** ** Sorting the parameters *)

Section Sorting.

Context {V : Type}.

Lemma insert_item_perm (kv : string * V) (l : dict V) :
  Permutation (insert_item kv l) (kv :: l).
Proof.
  induction l as [| kv' l IH]; simpl; [reflexivity |].
  destruct (String.leb (fst kv) (fst kv')); [reflexivity |].
  rewrite IH. apply perm_swap.
Qed.

Lemma sorted_perm (l : dict V) : Permutation (sorted l) l.
Proof.
  induction l as [| kv l IH]; simpl; [reflexivity |].
  rewrite insert_item_perm. now constructor.
Qed.

Lemma insert_item_sorted (kv : string * V) (l : dict V) :
  Sorted key_le l -> Sorted key_le (insert_item kv l).
Proof.
  induction 1 as [| kv' l Hs IH Hhd]; simpl.
  - repeat constructor.
  - destruct (String.leb (fst kv) (fst kv')) eqn:Hle.
    + repeat constructor; assumption.
    + constructor; [assumption |].
      assert (Hge : key_le kv' kv).
      { destruct (String.leb_total (fst kv) (fst kv')); [congruence | assumption]. }
      destruct Hhd as [| kv'' l' Hk]; simpl.
      * now constructor.
      * destruct (String.leb (fst kv) (fst kv'')); now constructor.
Qed.

Lemma sorted_is_sorted (l : dict V) : Sorted key_le (sorted l).
Proof.
  induction l; simpl; [constructor | now apply insert_item_sorted].
Qed.

(** Two insertions of items with different keys commute. *)
Lemma insert_item_comm (a b : string * V) (l : dict V) :
  fst a <> fst b ->
  insert_item a (insert_item b l) = insert_item b (insert_item a l).
Proof.
  intros Hab.
  assert (Hanti : String.leb (fst a) (fst b) = true ->
                  String.leb (fst b) (fst a) = false).
  { intros H1. destruct (String.leb (fst b) (fst a)) eqn:H2; [| reflexivity].
    exfalso. apply Hab. now apply String.leb_antisym. }
  assert (Htot : String.leb (fst a) (fst b) = false ->
                 String.leb (fst b) (fst a) = true).
  { intros H1. destruct (String.leb_total (fst a) (fst b)); congruence. }
  induction l as [| z l IH]; simpl.
  - destruct (String.leb (fst a) (fst b)) eqn:H1.
    + now rewrite (Hanti eq_refl).
    + now rewrite (Htot eq_refl).
  - destruct (String.leb (fst b) (fst z)) eqn:Hbz;
      destruct (String.leb (fst a) (fst z)) eqn:Haz; simpl.
    + destruct (String.leb (fst a) (fst b)) eqn:H1.
      * now rewrite (Hanti eq_refl), Hbz.
      * now rewrite (Htot eq_refl), Haz.
    + rewrite Hbz.
      destruct (String.leb (fst a) (fst b)) eqn:H1.
      * rewrite (leb_trans _ _ _ H1 Hbz) in Haz. discriminate.
      * simpl. now rewrite Haz.
    + rewrite Haz.
      destruct (String.leb (fst b) (fst a)) eqn:H1.
      * rewrite (leb_trans _ _ _ H1 Haz) in Hbz. discriminate.
      * destruct (String.leb (fst a) (fst b)) eqn:H2.
        -- simpl. now rewrite Hbz.
        -- discriminate (Htot eq_refl).
    + rewrite Hbz, Haz. now rewrite IH.
Qed.

(** Sorting forgets the order in which a dict was filled. *)
Lemma sorted_permutation (l l' : dict V) :
  NoDup (keys l) -> Permutation l l' -> sorted l = sorted l'.
Proof.
  intros Hnd Hp. induction Hp as [| x l l' Hp IH | x y l | l l' l'' Hp1 IH1 Hp2 IH2].
  - reflexivity.
  - simpl. inversion Hnd; subst. now rewrite IH.
  - simpl. apply insert_item_comm.
    inversion Hnd as [| k ks Hnotin _]; subst.
    intros Heq. apply Hnotin. left. now symmetry.
  - rewrite IH1 by assumption. apply IH2.
    unfold keys. eapply Permutation_NoDup; [| exact Hnd].
    now apply Permutation_map.
Qed.

End Sorting.

(** ** The signer *)

(** A check on the sixteen nibbles holds for every nibble. *)
Lemma nibble_check (p : Z -> bool) :
  forallb (fun k => p (Z.of_nat k)) (seq 0 16) = true ->
  forall n, (0 <= n < 16)%Z -> p n = true.
Proof.
  intros H n Hn. rewrite forallb_forall in H.
  rewrite <- (Z2Nat.id n) by lia.
  apply H, in_seq. lia.
Qed.

Lemma upper_hex_digit_ok (n : Z) :
  (0 <= n < 16)%Z -> upper_char (Bytes.hex_digit n) = upper_hex_digit n.
Proof.
  intros H. apply Ascii.eqb_eq.
  apply (nibble_check (fun n => Ascii.eqb (upper_char (Bytes.hex_digit n)) (upper_hex_digit n)));
    [reflexivity | exact H].
Qed.

Lemma upper_hex_ok (bs : list Z) :
  Forall is_byte bs -> upper (Bytes.hex bs) = upper_hex bs.
Proof.
  induction 1 as [| b bs Hb _ IH]; simpl; [reflexivity |].
  unfold is_byte in Hb.
  rewrite !upper_hex_digit_ok, IH; [reflexivity | |].
  - apply Z.mod_pos_bound. lia.
  - split; [apply Z.div_pos; lia | apply Z.div_lt_upper_bound; lia].
Qed.

Lemma be_bytes_are_bytes (n : nat) (x : Z) : Forall is_byte (Bytes.be_bytes n x).
Proof.
  induction n; simpl; constructor; [| assumption].
  apply Z.mod_pos_bound. lia.
Qed.

Lemma sha256_digest_bytes (msg : list Z) : Forall is_byte (Sha256.digest msg).
Proof.
  unfold Sha256.digest. apply Forall_flat_map.
  apply Forall_forall. intros w _. apply be_bytes_are_bytes.
Qed.

Lemma hmac_digest_bytes (key msg : list Z) : Forall is_byte (Hmac.digest key msg).
Proof. apply sha256_digest_bytes. Qed.

Lemma concat_canonical (params : dict pyval) :
  String.concat "&" (map (fun '(key, value) => key ++ "=" ++ format value) params)
  = canonical_params params.
Proof.
  induction params as [| [k v] rest IH]; [reflexivity |].
  destruct rest as [| kv rest'].
  - reflexivity.
  - change (String.concat "&" (map (fun '(key, value) => key ++ "=" ++ format value)
                                  ((k, v) :: kv :: rest')))
      with ((k ++ "=" ++ format v) ++ "&" ++
            String.concat "&" (map (fun '(key, value) => key ++ "=" ++ format value)
                                   (kv :: rest'))).
    rewrite IH. simpl canonical_params at 2.
    now rewrite !append_assoc.
Qed.

Lemma signed_message_canonical (time_ms : Z) (params : dict pyval) :
  signed_message time_ms params = canonical_string params time_ms.
Proof.
  unfold signed_message, canonical_string. now rewrite concat_canonical.
Qed.

Lemma signature_upper_hex (secret : string) (timestamp : Z) (params : dict pyval) :
  _get_signature timestamp secret params
  = upper_hex (Hmac.digest (Bytes.of_string secret)
                           (Bytes.of_string (canonical_string params timestamp))).
Proof.
  unfold _get_signature, Hmac.hexdigest.
  rewrite signed_message_canonical.
  apply upper_hex_ok, hmac_digest_bytes.
Qed.

(** C3. For every secret, timestamp and (sorted) parameter mapping,
    [_get_signature] is the uppercase hexadecimal rendering of the
    HMAC-SHA256, keyed by the secret, of the canonical string
    [key1=value1&key2=value2...|timestamp]; without parameters the message is
    [|timestamp]. *)
Theorem get_signature_spec (secret : string) (timestamp : Z) (params : dict pyval) :
  _get_signature timestamp secret params
  = upper_hex (Hmac.digest (Bytes.of_string secret)
                           (Bytes.of_string (canonical_string params timestamp)))
  /\ canonical_string [] timestamp = "|" ++ str_int timestamp.
Proof.
  split; [apply signature_upper_hex | reflexivity].
Qed.

(** *** Keyword binding *)

Lemma bind_kwargs_ok {V : Type} (fname : string) (names : list string) (kwargs : dict V) :
  (forall k, In k (keys kwargs) -> ~ In k names) ->
  bind_kwargs fname names kwargs = Ok tt.
Proof.
  intros H. unfold bind_kwargs.
  destruct (find _ kwargs) as [[k v] |] eqn:Hf; [exfalso | reflexivity].
  apply find_some in Hf. destruct Hf as [Hin Hex]. simpl in Hex.
  apply existsb_exists in Hex. destruct Hex as [n [Hn Heq]].
  apply String.eqb_eq in Heq. subst n.
  apply (H k); [| assumption].
  unfold keys. change k with (fst (k, v)). now apply in_map.
Qed.

Lemma keys_sorted {V : Type} (params : dict V) (k : string) :
  In k (keys (sorted params)) -> In k (keys params).
Proof.
  unfold keys. intros H.
  eapply Permutation_in; [| exact H].
  apply Permutation_map, sorted_perm.
Qed.

(** *** The REST headers *)

(** For a call whose parameters avoid the name [time_ms]: no headers on a
    [public] URL, an error when a credential is absent, the four signed
    headers otherwise. *)
Lemma rest_headers (url : string) (woo_key woo_secret : option string)
      (params : dict pyval) (now : Z) :
  (forall k, In k (keys params) -> ~ In k own_names) ->
  ~ In "time_ms" (keys params) ->
  (contains "public" url = true ->
   get url woo_key woo_secret params now = Ok (Request GET url params [])
   /\ post url woo_key woo_secret params now = Ok (Request POST url params [])
   /\ delete url woo_key woo_secret params now = Ok (Request DELETE url params []))
  /\ (contains "public" url = false -> woo_key = None \/ woo_secret = None ->
      exists msg,
        get url woo_key woo_secret params now = Raise (ValueError msg)
        /\ post url woo_key woo_secret params now = Raise (ValueError msg)
        /\ delete url woo_key woo_secret params now = Raise (ValueError msg))
  /\ (forall key secret,
        contains "public" url = false -> woo_key = Some key -> woo_secret = Some secret ->
        let headers :=
          [ ("Content-Type", "application/x-www-form-urlencoded");
            ("x-api-key", key);
            ("x-api-signature", _get_signature now secret (sorted params));
            ("x-api-timestamp", str_int now) ] in
        get url woo_key woo_secret params now = Ok (Request GET url params headers)
        /\ post url woo_key woo_secret params now = Ok (Request POST url params headers)
        /\ delete url woo_key woo_secret params now = Ok (Request DELETE url params headers)).
Proof.
  intros Hown Htime.
  assert (B1 : bind_kwargs "_headers" ["url"; "woo_key"; "woo_secret"] params = Ok tt)
    by (apply bind_kwargs_ok; exact Hown).
  assert (B2 : bind_kwargs "_get_headers" ["woo_key"; "woo_secret"] params = Ok tt).
  { apply bind_kwargs_ok. intros k Hk Hin. apply (Hown k Hk). now right. }
  assert (B3 : bind_kwargs "_get_signature" ["time_ms"; "woo_secret"] (sorted params) = Ok tt).
  { apply bind_kwargs_ok. intros k Hk Hin. apply keys_sorted in Hk.
    destruct Hin as [<- | [<- | []]]; [exact (Htime Hk) |].
    apply (Hown _ Hk). right. right. now left. }
  unfold get, post, delete, _headers, _get_headers. rewrite B1. simpl.
  split; [| split].
  - intros ->. simpl. auto.
  - intros -> [-> | ->].
    + eexists. simpl. repeat split; reflexivity.
    + destruct woo_key; eexists; simpl; repeat split; reflexivity.
  - intros key secret -> -> ->. rewrite B2. simpl. rewrite B3. simpl. auto.
Qed.

(** C5. The REST helpers do not send the signed headers for every call with
    both credentials: a query parameter named [time_ms] collides with the
    first parameter of [_get_signature], and the call ends in a [TypeError]
    before any request is made. *)
Theorem rest_call_time_ms_parameter :
  let url := "https://api.woo.org/v1/orders" in
  let params := [("symbol", PStr "SPOT_BTC_USDT"); ("time_ms", PInt 1700000000000)] in
  let error := TypeError "_get_signature() got multiple values for argument 'time_ms'" in
  get url (Some "key") (Some "secret") params 1700000000123 = Raise error
  /\ post url (Some "key") (Some "secret") params 1700000000123 = Raise error
  /\ delete url (Some "key") (Some "secret") params 1700000000123 = Raise error.
Proof. repeat split. Qed.



(** C7. The WebSocket auth frame is the serialised object
    [{"event": "auth", "params": {"apikey": K, "sign": S, "timestamp": T}}]
    whose [sign] is the signature over no parameters, that is the HMAC of
    [|t]; the signature is a function of the secret and the timestamp
    alone. *)
Theorem auth_message_spec (json_dumps : json -> string) (key secret : string) (t : Z) :
  _get_auth_message json_dumps key secret t
  = json_dumps
      (JDict [ ("event", JStr "auth");
               ("params", JDict [ ("apikey", JStr key);
                                  ("sign", JStr (_get_signature t secret []));
                                  ("timestamp", JStr (str_int t)) ]) ])
  /\ _get_signature t secret []
     = upper_hex (Hmac.digest (Bytes.of_string secret) (Bytes.of_string ("|" ++ str_int t)))
  /\ (forall secret' t', secret' = secret -> t' = t ->
        _get_signature t' secret' [] = _get_signature t secret []).
Proof.
  split; [reflexivity | split].
  - apply (signature_upper_hex secret t []).
  - intros ? ? -> ->. reflexivity.
Qed.

(** *** What a change of input does to the signature *)

Lemma hex_value_digit (n : Z) : (0 <= n < 16)%Z -> hex_value (upper_hex_digit n) = n.
Proof.
  intros H. apply Z.eqb_eq.
  apply (nibble_check (fun n => hex_value (upper_hex_digit n) =? n)%Z);
    [reflexivity | exact H].
Qed.

Lemma upper_hex_inj (bs bs' : list Z) :
  Forall is_byte bs -> Forall is_byte bs' -> upper_hex bs = upper_hex bs' -> bs = bs'.
Proof.
  intros H. revert bs'.
  induction H as [| b bs Hb _ IH]; intros bs' H' Heq; destruct H' as [| b' bs' Hb' H'];
    simpl in Heq; try discriminate; [reflexivity |].
  injection Heq as Hhi Hlo Hrest.
  unfold is_byte in Hb, Hb'.
  assert (Hq : (b / 16 = b' / 16)%Z).
  { rewrite <- (hex_value_digit (b / 16)), <- (hex_value_digit (b' / 16)), Hhi;
      [reflexivity | |];
      (split; [apply Z.div_pos; lia | apply Z.div_lt_upper_bound; lia]). }
  assert (Hr : (b mod 16 = b' mod 16)%Z).
  { rewrite <- (hex_value_digit (b mod 16)), <- (hex_value_digit (b' mod 16)), Hlo;
      [reflexivity | |]; apply Z.mod_pos_bound; lia. }
  f_equal; [| now apply IH].
  rewrite (Z.div_mod b 16), (Z.div_mod b' 16) by lia. congruence.
Qed.

Lemma canonical_params_inj (p p' : dict pyval) :
  keys p = keys p' -> separator_free p -> separator_free p' ->
  canonical_params p = canonical_params p' ->
  formatted_values p = formatted_values p'.
Proof.
  revert p'. induction p as [| [k v] rest IH]; intros [| [k' v'] rest'] Hk Hp Hp' Heq;
    try discriminate Hk; [reflexivity |].
  injection Hk as <- Hk.
  inversion Hp as [| ? ? Hv Hrest]; subst. inversion Hp' as [| ? ? Hv' Hrest']; subst.
  simpl in Hv, Hv'.
  destruct rest as [| kv rest]; destruct rest' as [| kv' rest']; try discriminate Hk.
  - simpl in Heq. apply append_inv_head in Heq. injection Heq as Heq.
    simpl. now rewrite Heq.
  - change (k ++ "=" ++ format v ++ String "&" (canonical_params (kv :: rest))
            = k ++ "=" ++ format v' ++ String "&" (canonical_params (kv' :: rest'))) in Heq.
    apply append_inv_head in Heq. injection Heq as Heq.
    apply split_at_first in Heq; [| assumption | assumption].
    destruct Heq as [Hfv Hcp].
    change (format v :: formatted_values (kv :: rest)
            = format v' :: formatted_values (kv' :: rest')).
    rewrite Hfv. f_equal. now apply IH.
Qed.

(** C8, as the code has it.  The signed message changes whenever the
    timestamp changes, and whenever a value changes between two mappings with
    the same keys whose formatted values are free of the separator [&]; the
    signature is the HMAC-SHA256 of that message, so two signatures can only
    agree where HMAC-SHA256 maps the two messages to one digest. *)
Theorem signed_message_changes (t t' : Z) (p p' : dict pyval) :
  t <> t' \/
  (keys p = keys p' /\ separator_free p /\ separator_free p'
   /\ formatted_values p <> formatted_values p') ->
  signed_message t p <> signed_message t' p'
  /\ forall secret,
       _get_signature t secret p = _get_signature t' secret p' ->
       Hmac.digest (Bytes.of_string secret) (Bytes.of_string (signed_message t p))
       = Hmac.digest (Bytes.of_string secret) (Bytes.of_string (signed_message t' p')).
Proof.
  intros H. split.
  - intros Heq. rewrite !signed_message_canonical in Heq.
    unfold canonical_string in Heq.
    apply split_at_last in Heq; try apply str_int_no_bar.
    destruct Heq as [Hcp Ht]. apply str_int_inj in Ht.
    destruct H as [Hne | (Hk & Hp & Hp' & Hne)]; [contradiction |].
    apply Hne. now apply canonical_params_inj.
  - intros secret Heq.
    rewrite !signature_upper_hex, <- !signed_message_canonical in Heq.
    apply upper_hex_inj in Heq; [assumption | |]; apply hmac_digest_bytes.
Qed.

Lemma signed_message_changes_example :
  signed_message 1700000000000 [("symbol", PStr "SPOT_BTC_USDT")]
  <> signed_message 1700000000001 [("symbol", PStr "SPOT_BTC_USDT")].
Proof.
  apply (signed_message_changes 1700000000000 1700000000001
           [("symbol", PStr "SPOT_BTC_USDT")] [("symbol", PStr "SPOT_BTC_USDT")]).
  left. lia.
Defined.

(** C8 as stated fails: two mappings with the same keys and different values
    have the same signature, because a value may contain the separator. *)
Lemma signature_collision :
  keys [("a", PStr "x&b=y"); ("b", PStr "z")] = keys [("a", PStr "x"); ("b", PStr "y&b=z")]
  /\ formatted_values [("a", PStr "x&b=y"); ("b", PStr "z")]
     <> formatted_values [("a", PStr "x"); ("b", PStr "y&b=z")]
  /\ _get_signature 1700000000000 "secret" [("a", PStr "x&b=y"); ("b", PStr "z")]
     = "2B4A8F9DA0E833F495550104729954EC6D0152C0FA6C76D136A70E2BA9675778"
  /\ _get_signature 1700000000000 "secret" [("a", PStr "x"); ("b", PStr "y&b=z")]
     = "2B4A8F9DA0E833F495550104729954EC6D0152C0FA6C76D136A70E2BA9675778".
Proof.
  split; [reflexivity | split; [discriminate |]].
  split; vm_compute; reflexivity.
Qed.

(** C10. The timestamp a signed artifact advertises is the one that was
    signed: in the REST headers [x-api-timestamp] is [str(t)] for the [t]
    inside [x-api-signature], and in the auth frame [timestamp] is [str(t)]
    for the [t] inside [sign]; [str] is injective, so [t] is the only such
    timestamp. *)
Theorem advertised_timestamp_is_signed (json_dumps : json -> string)
        (key secret : string) (params : dict pyval) (now : Z) (headers : dict string) :
  _get_headers key secret params now = Ok headers ->
  exists t,
    dict_get headers "x-api-timestamp" = Some (str_int t)
    /\ dict_get headers "x-api-signature" = Some (_get_signature t secret (sorted params))
    /\ _get_auth_message json_dumps key secret now
       = json_dumps (auth_object key (_get_signature t secret []) (str_int t))
    /\ forall t', str_int t' = str_int t -> t' = t.
Proof.
  unfold _get_headers. intros H. exists now.
  destruct (bind_kwargs "_get_signature" ["time_ms"; "woo_secret"] (sorted params));
    simpl in H; [| discriminate].
  injection H as <-.
  repeat split. intros t'. apply str_int_inj.
Qed.

(** ** The listener *)

(** An occurrence of [x] in [evs ++ tr] lies in [tr] when nothing in [evs]
    is of the kind of [x]. *)
Lemma split_skip (f : event -> bool) (evs tr pre : list event) (x : event) (post : list event) :
  forallb (fun e => negb (f e)) evs = true -> f x = true ->
  (evs ++ tr = pre ++ x :: post)%list ->
  exists pre', pre = (evs ++ pre')%list /\ tr = (pre' ++ x :: post)%list.
Proof.
  revert pre. induction evs as [| e evs IH]; intros pre Hevs Hx Heq; simpl in *.
  - now exists pre.
  - apply andb_true_iff in Hevs. destruct Hevs as [He Hevs].
    destruct pre as [| p pre]; simpl in Heq; injection Heq as -> Heq.
    + rewrite Hx in He. discriminate.
    + destruct (IH pre Hevs Hx Heq) as [pre' [-> ->]]. now exists pre'.
Qed.

Section ListenerFacts.

Variable json_dumps : json -> string.
Variable json_loads : string -> option json.
Variable url : string.
Variable topics : list string.
Variable woo_key woo_secret : option string.

Abbreviation step := (step json_dumps json_loads url topics woo_key woo_secret).
Abbreviation run := (run json_dumps json_loads url topics woo_key woo_secret).
Abbreviation _listener := (_listener json_dumps json_loads url topics woo_key woo_secret).
Abbreviation inner_except := (inner_except url).
Abbreviation _get_auth_message := (_get_auth_message json_dumps).
Abbreviation refused := (refused url).
Abbreviation one_pong_then_read := (one_pong_then_read json_dumps).
Abbreviation answered := (answered json_dumps).
Abbreviation subscribe_frames := (subscribe_frames json_dumps).
Abbreviation handshake_frames := (handshake_frames json_dumps url topics woo_key woo_secret).
Abbreviation streaming := (streaming json_dumps).
Abbreviation handshake_done := (handshake_done json_dumps url topics woo_key woo_secret).
Abbreviation pending := (pending json_dumps topics).
Abbreviation completes := (completes json_dumps topics).

Lemma run_cons (s : state) (i : io) (script : list io) :
  run s (i :: script) = after (fst (step s i)) (run (snd (step s i)) script).
Proof. reflexivity. Qed.

Lemma run_app (s : state) (script1 script2 : list io) :
  run s (script1 ++ script2)
  = after (fst (run s script1)) (run (snd (run s script1)) script2).
Proof.
  revert s. induction script1 as [| i script1 IH]; intros s.
  - simpl. unfold after. simpl. now destruct (run s script2).
  - simpl app. rewrite !run_cons, IH. unfold after. simpl.
    now rewrite app_assoc.
Qed.

Lemma outer_except_restarted (e : exn) : restarted (outer_except e).
Proof. destruct e; repeat split; simpl; auto. Qed.

Lemma inner_except_restarted (e : exn) : restarted (inner_except e).
Proof. destruct e; repeat split; simpl; auto. Qed.

(** *** Missing credentials on a private endpoint *)

Lemma refused_nil : refused [].
Proof.
  split; [constructor |]. intros [| ? ?] post H; discriminate H.
Qed.

Lemma refused_cons (ev : event) (tr : list event) :
  attempt_only ev -> (forall u, ev <> Connected u) -> refused tr -> refused (ev :: tr).
Proof.
  intros Ha Hne [Hall Hdec]. split; [now constructor |].
  intros [| p pre] post H; simpl in H; injection H as -> H.
  - now destruct (Hne url).
  - now apply (Hdec pre).
Qed.

Lemma refused_connected (msg : string) (tr : list event) :
  refused tr -> refused (Connected url :: LogRestart (ValueError msg) :: tr).
Proof.
  intros Htr.
  assert (Htl : refused (LogRestart (ValueError msg) :: tr))
    by (apply refused_cons; [exact I | discriminate | assumption]).
  destruct Htl as [Hall Hdec]. split; [now constructor |].
  intros [| p pre] post H; simpl in H; injection H as H.
  - subst post. eauto.
  - subst p. now apply (Hdec pre).
Qed.

Lemma missing_credential_refused (script : list io) (s : state) :
  contains "private" url = true ->
  woo_key = None \/ woo_secret = None ->
  s = Connecting \/ s = Cancelled ->
  refused (fst (run s script)).
Proof.
  intros Hpriv Hcred. revert s.
  induction script as [| i script IH]; intros s Hs; [apply refused_nil |].
  rewrite run_cons.
  destruct Hs as [-> | ->]; [| exact (IH Cancelled (or_intror eq_refl))].
  unfold step. destruct (outcome i) as [x | e].
  - rewrite Hpriv.
    destruct Hcred as [-> | ->]; [| destruct woo_key]; simpl;
      apply refused_connected, IH; now left.
  - destruct e; simpl;
      (apply refused_cons; [exact I | discriminate |]);
      try (apply refused_cons; [exact I | discriminate |]);
      apply IH; auto.
Qed.

Lemma refused_output (tr : list event) : Forall attempt_only tr -> output tr = [].
Proof.
  induction 1 as [| ev tr Hev _ IH]; [reflexivity |].
  destruct ev; simpl in *; (contradiction || assumption).
Qed.


(** *** Keepalive *)

Lemma receiving_starts_with_read (script : list io) :
  starts_with_read (fst (run Receiving script)).
Proof.
  destruct script as [| i script]; [now left |].
  rewrite run_cons. unfold step.
  destruct (outcome i) as [msg | e].
  - right. left. destruct (json_loads msg) as [obj |]; [destruct (is_ping obj) |];
      simpl; eauto.
  - right. right. simpl. eauto.
Qed.

Lemma ponging_one_pong (script : list io) :
  one_pong_then_read (fst (run Ponging script)).
Proof.
  destruct script as [| i script]; [now left |].
  rewrite run_cons. unfold step.
  destruct (outcome i) as [x | e]; simpl.
  - right. left. eexists. split; [reflexivity | apply receiving_starts_with_read].
  - right. right. eauto.
Qed.

Lemma received_answered (script : list io) (s : state)
      (pre : list event) (msg : string) (obj : json) (post : list event) :
  fst (run s script) = (pre ++ Received msg :: post)%list ->
  json_loads msg = Some obj ->
  answered obj post.
Proof.
  revert s pre. induction script as [| i script IH]; intros s pre Htr Hobj.
  - destruct pre; discriminate Htr.
  - rewrite run_cons in Htr. simpl in Htr.
    assert (Hskip : forall evs s' pre0,
               forallb (fun e => negb (is_received e)) evs = true ->
               (evs ++ fst (run s' script) = pre0 ++ Received msg :: post)%list ->
               answered obj post).
    { intros evs s' pre0 Hevs Heq.
      destruct (split_skip is_received evs _ pre0 (Received msg) post Hevs eq_refl Heq)
        as [pre' [_ Htl]].
      exact (IH s' pre' Htl Hobj). }
    assert (Hexc : forall ev e pre0,
               is_received ev = false ->
               (fst (after [ev] (inner_except e)) ++
                fst (run (snd (after [ev] (inner_except e))) script)
                = pre0 ++ Received msg :: post)%list ->
               answered obj post).
    { intros ev e pre0 Hev. apply Hskip.
      simpl. rewrite Hev. simpl.
      apply (inner_except_restarted e). }
    unfold step in Htr.
    destruct s; simpl in Htr.
    + (* Connecting *)
      destruct (outcome i) as [x | e].
      * destruct (contains "private" url);
          [destruct woo_key; [destruct woo_secret |] |];
          revert Htr; first [apply Hexc; reflexivity | apply Hskip; reflexivity].
      * revert Htr. apply Hskip. simpl.
        apply (outer_except_restarted e).
    + destruct (outcome i) as [x | e]; revert Htr; first [apply Hexc; reflexivity | apply Hskip; reflexivity].
    + destruct (outcome i) as [x | e]; revert Htr; first [apply Hexc; reflexivity | apply Hskip; reflexivity].
    + (* Receiving *)
      destruct (outcome i) as [msg0 | e]; [| revert Htr; apply Hexc; reflexivity].
      destruct pre as [| p pre].
      * (* this very frame *)
        destruct (json_loads msg0) as [obj0 |] eqn:Hl;
          [destruct (is_ping obj0) eqn:Hping |]; simpl in Htr;
          injection Htr as Hm Hpost; subst msg0; rewrite Hobj in Hl.
        -- injection Hl as <-. unfold answered. rewrite Hping.
           rewrite <- Hpost. apply ponging_one_pong.
        -- injection Hl as <-. unfold answered. rewrite Hping.
           rewrite <- Hpost. eauto.
        -- discriminate Hl.
      * (* a later frame *)
        destruct (json_loads msg0) as [obj0 |];
          [destruct (is_ping obj0) |]; simpl in Htr;
          injection Htr as _ Htr; revert Htr.
        -- apply (Hskip [] Ponging pre). reflexivity.
        -- apply (Hskip [Put obj0] Receiving pre). reflexivity.
        -- apply (Hskip [LogRestart JSONDecodeError] Connecting pre). reflexivity.
    + destruct (outcome i) as [x | e]; revert Htr; first [apply Hexc; reflexivity | apply Hskip; reflexivity].
    + revert Htr. apply (Hskip [] Cancelled pre). reflexivity.
Qed.

Lemma put_not_ping (script : list io) (s : state) (obj : json) :
  In (Put obj) (fst (run s script)) -> is_ping obj = false.
Proof.
  revert s. induction script as [| i script IH]; intros s Hin; [destruct Hin |].
  rewrite run_cons in Hin. simpl in Hin. apply in_app_or in Hin.
  destruct Hin as [Hin | Hin]; [| exact (IH _ Hin)].
  assert (Hquiet : forall evs, forallb (fun e => negb (is_put e)) evs = true ->
                               In (Put obj) evs -> is_ping obj = false).
  { intros evs Hevs Hput. rewrite forallb_forall in Hevs.
    specialize (Hevs _ Hput). discriminate Hevs. }
  assert (Hexc : forall ev e, is_put ev = false ->
                              In (Put obj) (fst (after [ev] (inner_except e))) ->
                              is_ping obj = false).
  { intros ev e Hev. apply Hquiet. simpl. rewrite Hev. simpl.
    apply (inner_except_restarted e). }
  revert Hin. unfold step. destruct s; simpl.
  - destruct (outcome i) as [x | e].
    + destruct (contains "private" url);
        [destruct woo_key; [destruct woo_secret |] |];
        first [apply Hexc; reflexivity | apply Hquiet; reflexivity].
    + apply Hquiet. simpl. apply (outer_except_restarted e).
  - destruct (outcome i); first [apply Hexc; reflexivity | apply Hquiet; reflexivity].
  - destruct (outcome i); first [apply Hexc; reflexivity | apply Hquiet; reflexivity].
  - destruct (outcome i) as [msg | e]; [| apply Hexc; reflexivity].
    destruct (json_loads msg) as [obj0 |]; [destruct (is_ping obj0) eqn:Hping |].
    + apply Hquiet. reflexivity.
    + intros [Hin | [Hin | []]]; [discriminate Hin |].
      injection Hin as ->. exact Hping.
    + apply Hquiet. reflexivity.
  - destruct (outcome i); first [apply Hexc; reflexivity | apply Hquiet; reflexivity].
  - intros [].
Qed.

Lemma output_put (tr : list event) (obj : json) :
  In obj (output tr) -> In (Put obj) tr.
Proof.
  induction tr as [| ev tr IH]; simpl; [auto |].
  destruct ev; simpl; try (intros H; right; now apply IH).
  intros [-> | H]; [now left | right; now apply IH].
Qed.


(** *** Reconnection *)

Lemma pending_subscribing_inv (ts : list string) (frames : list string) :
  pending (subscribing ts) frames -> frames = subscribe_frames ts.
Proof. destruct ts; simpl; auto. Qed.

Lemma handshake_done_app (evs pre : list event) :
  handshake_done pre -> handshake_done (evs ++ pre).
Proof.
  intros (pre1 & frames & pre2 & -> & Hf & Hs).
  exists (evs ++ pre1)%list, frames, pre2. now rewrite <- app_assoc.
Qed.

Lemma completes_sent (s s' : state) (frame : string) (pre : list event) :
  (forall frames, pending s' frames -> pending s (frame :: frames)) ->
  completes s' pre -> completes s (Sent frame :: pre).
Proof.
  intros Hp (frames & pre2 & Hf & -> & Hs).
  exists (frame :: frames), pre2. auto.
Qed.

Lemma completes_streaming (s s' : state) (evs pre : list event) :
  pending s [] -> (forall frames, pending s' frames -> frames = []) ->
  Forall streaming evs ->
  completes s' pre -> completes s (evs ++ pre).
Proof.
  intros Hs Hs' Hevs (frames & pre2 & Hf & -> & Hpre2).
  rewrite (Hs' _ Hf). exists [], (evs ++ pre2)%list.
  repeat split; [assumption |]. apply Forall_app. auto.
Qed.

(** What a successful [connect] leads to. *)
Lemma connecting_step (i : io) (x : string) :
  outcome i = Ok x ->
  (exists key secret,
      step Connecting i = ([Connected url], Authenticating key secret)
      /\ contains "private" url = true
      /\ woo_key = Some key /\ woo_secret = Some secret)
  \/ (step Connecting i = ([Connected url], subscribing topics)
      /\ contains "private" url = false)
  \/ (exists msg,
        step Connecting i = ([Connected url; LogRestart (ValueError msg)], Connecting)
        /\ contains "private" url = true
        /\ (woo_key = None \/ woo_secret = None)).
Proof.
  intros Hi. unfold step. rewrite Hi.
  destruct (contains "private" url); [| right; left; split; reflexivity].
  destruct woo_key as [key |]; [| right; right; eexists; repeat split; now left].
  destruct woo_secret as [secret |]; [| right; right; eexists; repeat split; now right].
  left. exists key, secret. repeat split.
Qed.

Lemma put_after_handshake (script : list io) (s : state)
      (pre : list event) (obj : json) (post : list event) :
  fst (run s script) = (pre ++ Put obj :: post)%list ->
  completes s pre \/ handshake_done pre.
Proof.
  revert s pre. induction script as [| i script IH]; intros s pre Htr.
  - destruct pre; discriminate Htr.
  - rewrite run_cons in Htr. simpl in Htr.
    assert (Hskip : forall evs s' pre0,
               forallb (fun e => negb (is_put e)) evs = true ->
               (evs ++ fst (run s' script) = pre0 ++ Put obj :: post)%list ->
               exists pre', pre0 = (evs ++ pre')%list
                            /\ (completes s' pre' \/ handshake_done pre')).
    { intros evs s' pre0 Hevs Heq.
      destruct (split_skip is_put evs _ pre0 (Put obj) post Hevs eq_refl Heq)
        as [pre' [-> Htl]].
      exists pre'. split; [reflexivity | exact (IH s' pre' Htl)]. }
    assert (Hrestart : forall evs s' pre0,
               s' = Connecting \/ s' = Cancelled ->
               forallb (fun e => negb (is_put e)) evs = true ->
               (evs ++ fst (run s' script) = pre0 ++ Put obj :: post)%list ->
               handshake_done pre0).
    { intros evs s' pre0 Hs Hput Heq.
      destruct (Hskip _ _ _ Hput Heq) as (pre' & -> & Hpre').
      apply handshake_done_app.
      destruct Hpre' as [(frames & pre2 & Hf & _) | Hd]; [| assumption].
      destruct Hs as [Hs | Hs]; rewrite Hs in Hf; destruct Hf. }
    assert (Hexc : forall ev e pre0,
               is_put ev = false ->
               (fst (after [ev] (inner_except e)) ++
                fst (run (snd (after [ev] (inner_except e))) script)
                = pre0 ++ Put obj :: post)%list ->
               handshake_done pre0).
    { intros ev e pre0 Hp. destruct (inner_except_restarted e) as (Hs & Hput & _).
      apply Hrestart; [exact Hs |]. simpl. now rewrite Hp. }
    destruct s; [| unfold step in Htr; simpl in Htr ..].
    + (* Connecting *)
      right.
      destruct (outcome i) as [x | e] eqn:Hi.
      * destruct (connecting_step i x Hi)
          as [(key & secret & Hstep & Hpriv & Hkey & Hsecret)
             | [(Hstep & Hpriv) | (msg & Hstep & _)]];
          rewrite Hstep in Htr; simpl in Htr.
        -- destruct (Hskip [Connected url] _ _ eq_refl Htr) as (pre' & -> & [Hc | Hd]);
             [| now apply handshake_done_app].
           destruct Hc as (frames & pre2 & (t & ->) & -> & Hs).
           exists [], (_get_auth_message key secret t :: subscribe_frames topics), pre2.
           repeat split; [| assumption].
           unfold handshake_frames. rewrite Hpriv. eauto 6.
        -- destruct (Hskip [Connected url] _ _ eq_refl Htr) as (pre' & -> & [Hc | Hd]);
             [| now apply handshake_done_app].
           destruct Hc as (frames & pre2 & Hf & -> & Hs).
           apply pending_subscribing_inv in Hf. subst frames.
           exists [], (subscribe_frames topics), pre2.
           repeat split; [| assumption].
           unfold handshake_frames. now rewrite Hpriv.
        -- revert Htr.
           apply (Hrestart [Connected url; LogRestart (ValueError msg)] Connecting);
             [now left | reflexivity].
      * unfold step in Htr. rewrite Hi in Htr.
        destruct (outer_except_restarted e) as (Hs & Hput & _).
        revert Htr. apply Hrestart; [exact Hs |]. simpl. exact Hput.
    + (* Authenticating *)
      destruct (outcome i) as [x | e]; [| right; revert Htr; apply Hexc; reflexivity].
      destruct (Hskip [Sent _] _ _ eq_refl Htr) as (pre' & -> & [Hc | Hd]);
        [left | right; now apply handshake_done_app].
      apply (completes_sent _ (subscribing topics)); [| assumption].
      intros frames Hf. apply pending_subscribing_inv in Hf. subst. simpl. eauto.
    + (* Subscribing *)
      destruct (outcome i) as [x | e]; [| right; revert Htr; apply Hexc; reflexivity].
      destruct (Hskip [Sent _] _ _ eq_refl Htr) as (pre' & -> & [Hc | Hd]);
        [left | right; now apply handshake_done_app].
      apply (completes_sent _ (subscribing rest)); [| assumption].
      intros frames Hf. apply pending_subscribing_inv in Hf. subst. reflexivity.
    + (* Receiving *)
      destruct (outcome i) as [msg | e]; [| right; revert Htr; apply Hexc; reflexivity].
      destruct (json_loads msg) as [obj0 |];
        [destruct (is_ping obj0) |
         right; revert Htr; apply (Hexc (Received msg) JSONDecodeError); reflexivity].
      * destruct (Hskip [Received msg] _ _ eq_refl Htr) as (pre' & -> & [Hc | Hd]);
          [left | right; now apply handshake_done_app].
        apply (completes_streaming Receiving Ponging [Received msg]);
          [reflexivity | auto | repeat constructor | assumption].
      * simpl in Htr. destruct pre as [| p pre]; [discriminate Htr |].
        injection Htr as <- Htr.
        destruct pre as [| p pre].
        -- left. exists [], [Received msg]. repeat split. repeat constructor.
        -- injection Htr as <- Htr.
           destruct (IH Receiving pre Htr) as [Hc | Hd];
             [left | right; now apply (handshake_done_app [Received msg; Put obj0])].
           apply (completes_streaming Receiving Receiving [Received msg; Put obj0]);
             [reflexivity | auto | repeat constructor | assumption].
    + (* Ponging *)
      destruct (outcome i) as [x | e]; [| right; revert Htr; apply Hexc; reflexivity].
      destruct (Hskip [Sent _] _ _ eq_refl Htr) as (pre' & -> & [Hc | Hd]);
        [left | right; now apply handshake_done_app].
      apply (completes_streaming Ponging Receiving [Sent (json_dumps pong_object)]);
        [reflexivity | auto | repeat constructor | assumption].
    + (* Cancelled *)
      destruct (IH Cancelled pre Htr) as [(frames & pre2 & [] & _) | Hd]. now right.
Qed.

Lemma closed_step (s : state) (i : io) :
  connected s -> outcome i = Raise ConnectionClosed ->
  exists failed,
    step s i = ([failed; LogClosed url ConnectionClosed], Connecting)
    /\ (failed = RecvFailed ConnectionClosed
        \/ exists frame, failed = SendFailed frame ConnectionClosed).
Proof.
  intros Hs Hi. unfold step. rewrite Hi.
  destruct s; simpl in Hs; try contradiction; eexists; split;
    try reflexivity; eauto.
Qed.

(** Without the credentials a private endpoint never gets past [connect]. *)
Lemma missing_credential_state (script : list io) (s : state) :
  contains "private" url = true ->
  woo_key = None \/ woo_secret = None ->
  s = Connecting \/ s = Cancelled ->
  snd (run s script) = Connecting \/ snd (run s script) = Cancelled.
Proof.
  intros Hpriv Hcred. revert s.
  induction script as [| i script IH]; intros s Hs; [exact Hs |].
  rewrite run_cons. simpl. apply IH.
  destruct Hs as [-> | ->]; [| now right].
  unfold step. destruct (outcome i) as [x | e].
  - rewrite Hpriv. destruct Hcred as [-> | ->]; [| destruct woo_key]; now left.
  - apply (outer_except_restarted e).
Qed.

(** While the environment lets the sends through, the subscriptions go out
    one per topic, in order, and the listener starts to read. *)
Lemma run_subscribing (ts : list string) (oks : list io) :
  Forall succeeds oks -> List.length oks = List.length ts ->
  run (subscribing ts) oks = (map Sent (subscribe_frames ts), Receiving).
Proof.
  revert oks. induction ts as [| topic rest IH]; intros [| i oks] Hok Hlen;
    try discriminate Hlen; [reflexivity |].
  inversion Hok as [| ? ? [x Hx] Hoks]; subst.
  simpl subscribing. rewrite run_cons. unfold step. rewrite Hx. simpl.
  rewrite IH; [reflexivity | assumption | now injection Hlen].
Qed.


(** *** The two conventions for authentication *)

(** C9. REST and WebSocket decide on different substrings.  REST sends
    empty headers exactly when the URL contains [public], credentials or
    not, and demands the credentials otherwise.  After a successful
    [connect] the listener turns to the auth frame exactly when the URL
    contains [private] (with credentials; without them it raises).  So a
    URL with neither substring needs credentials for REST and never gets
    an auth frame, and a URL with both gets no REST headers and does get
    the auth step. *)
Theorem auth_conventions_differ (params : dict pyval) (now t : Z) (x : string) :
  let next := snd (step Connecting (IO t (Ok x))) in
  (_headers url woo_key woo_secret params now = Ok [] <-> contains "public" url = true)
  /\ (contains "public" url = false -> woo_key = None \/ woo_secret = None ->
      exists msg, _headers url woo_key woo_secret params now = Raise (ValueError msg))
  /\ (forall key secret, woo_key = Some key -> woo_secret = Some secret ->
        (next = Authenticating key secret <-> contains "private" url = true))
  /\ (contains "private" url = true -> woo_key = None \/ woo_secret = None ->
      exists msg, step Connecting (IO t (Ok x))
                  = ([Connected url; LogRestart (ValueError msg)], Connecting))
  /\ (contains "private" url = false ->
      step Connecting (IO t (Ok x)) = ([Connected url], subscribing topics)).
Proof.
  intros next. subst next. unfold _headers, step. simpl.
  split; [| split; [| split; [| split]]].
  - destruct (contains "public" url); [tauto |].
    split; [| discriminate].
    destruct woo_key as [key |]; [| discriminate].
    destruct woo_secret as [secret |]; [| discriminate].
    destruct (bind_kwargs "_get_headers" ["woo_key"; "woo_secret"] params);
      [| discriminate]. simpl.
    unfold _get_headers.
    destruct (bind_kwargs "_get_signature" ["time_ms"; "woo_secret"] (sorted params));
      discriminate.
  - intros -> [-> | ->]; [| destruct woo_key]; eexists; reflexivity.
  - intros key secret -> ->.
    destruct (contains "private" url); [tauto |].
    split; [| discriminate]. destruct topics; discriminate.
  - intros -> [-> | ->]; [| destruct woo_key]; eexists; reflexivity.
  - intros ->. reflexivity.
Qed.

End ListenerFacts.

(** ** The listener against the scripted server *)





Lemma advertised_timestamp_example :
  exists t,
    dict_get [ ("Content-Type", "application/x-www-form-urlencoded");
               ("x-api-key", "key");
               ("x-api-signature",
                _get_signature 1700000000000 "secret" (sorted [("symbol", PStr "SPOT_BTC_USDT")]));
               ("x-api-timestamp", str_int 1700000000000) ] "x-api-timestamp"
    = Some (str_int t)
    /\ dict_get [ ("Content-Type", "application/x-www-form-urlencoded");
                  ("x-api-key", "key");
                  ("x-api-signature",
                   _get_signature 1700000000000 "secret" (sorted [("symbol", PStr "SPOT_BTC_USDT")]));
                  ("x-api-timestamp", str_int 1700000000000) ] "x-api-signature"
       = Some (_get_signature t "secret" (sorted [("symbol", PStr "SPOT_BTC_USDT")]))
    /\ _get_auth_message example_dumps "key" "secret" 1700000000000
       = example_dumps (auth_object "key" (_get_signature t "secret" []) (str_int t))
    /\ forall t', str_int t' = str_int t -> t' = t.
Proof.
  apply (advertised_timestamp_is_signed example_dumps "key" "secret"
           [("symbol", PStr "SPOT_BTC_USDT")] 1700000000000).
  reflexivity.
Defined.

(** The stream URL of the source has neither substring: REST asks for the
    credentials, the listener goes straight to the subscriptions. *)
Lemma auth_conventions_differ_example :
  (exists msg, _headers stream_url None None [] 1700000000000 = Raise (ValueError msg))
  /\ step example_dumps example_loads stream_url ["SPOT_BTC_USDT@trade"] None None
          Connecting (IO 1700000000000 (Ok ""))
     = ([Connected stream_url], Subscribing "SPOT_BTC_USDT@trade" []).
Proof.
  destruct (auth_conventions_differ
              example_dumps example_loads stream_url ["SPOT_BTC_USDT@trade"] None None
              [] 1700000000000 1700000000000 "")
    as (_ & Hrest & _ & _ & Hws).
  split.
  - apply Hrest; [reflexivity | now left].
  - apply Hws. reflexivity.
Defined.

(** * Further properties *)

(** ** The shape of a signature *)

Lemma compress_length (h block : list Z) :
  List.length h = 8%nat -> List.length (Sha256.compress h block) = 8%nat.
Proof.
  intros Hh. unfold Sha256.compress.
  rewrite length_map, length_combine, Hh. reflexivity.
Qed.

Lemma blocks_length (n : nat) (h data : list Z) :
  List.length h = 8%nat -> List.length (Sha256.blocks n h data) = 8%nat.
Proof.
  revert h data. induction n as [| n IH]; intros h data Hh; [exact Hh |].
  simpl. apply IH, compress_length, Hh.
Qed.

Lemma be_bytes_length (n : nat) (x : Z) : List.length (Bytes.be_bytes n x) = n.
Proof. induction n; simpl; congruence. Qed.

Lemma sha256_digest_length (msg : list Z) : List.length (Sha256.digest msg) = 32%nat.
Proof.
  unfold Sha256.digest.
  assert (H : forall ws, List.length (flat_map (Bytes.be_bytes 4) ws) = (4 * List.length ws)%nat).
  { induction ws as [| w ws IH]; [reflexivity |].
    cbn [flat_map]. rewrite length_app, be_bytes_length, IH. simpl. lia. }
  rewrite H, blocks_length; reflexivity.
Qed.

Lemma upper_hex_length (bs : list Z) :
  String.length (upper_hex bs) = (2 * List.length bs)%nat.
Proof.
  induction bs as [| b bs IH]; [reflexivity |].
  simpl. rewrite IH. lia.
Qed.

Lemma upper_hex_chars (bs : list Z) :
  Forall is_byte bs -> all_chars is_upper_hex_char (upper_hex bs) = true.
Proof.
  induction 1 as [| b bs Hb _ IH]; [reflexivity |].
  unfold is_byte in Hb. simpl. rewrite IH, andb_true_r.
  rewrite !(nibble_check (fun n => is_upper_hex_char (upper_hex_digit n))); try reflexivity.
  - apply Z.mod_pos_bound. lia.
  - split; [apply Z.div_pos; lia | apply Z.div_lt_upper_bound; lia].
Qed.

(** X2. Whatever the secret, the timestamp and the parameters, a signature
    is 64 characters long and each character is one of [0-9A-F]. *)
Theorem signature_shape (time_ms : Z) (woo_secret : string) (sorted_params : dict pyval) :
  String.length (_get_signature time_ms woo_secret sorted_params) = 64%nat
  /\ all_chars is_upper_hex_char (_get_signature time_ms woo_secret sorted_params) = true.
Proof.
  rewrite signature_upper_hex. split.
  - rewrite upper_hex_length. unfold Hmac.digest. now rewrite sha256_digest_length.
  - apply upper_hex_chars, hmac_digest_bytes.
Qed.

(** ** The substring convention of the REST helpers *)

Lemma prefix_spec (sub s : string) :
  String.prefix sub s = true <-> exists suf, s = sub ++ suf.
Proof.
  revert s. induction sub as [| c sub IH]; intros s.
  - destruct s; simpl; split; eauto.
  - destruct s as [| c' s]; simpl.
    + split; [discriminate | intros [suf H]; discriminate H].
    + destruct (Ascii.ascii_dec c c') as [<- | Hne].
      * rewrite IH. split; intros [suf H]; exists suf; [now rewrite H | now injection H].
      * split; [discriminate | intros [suf H]; injection H as H _; congruence].
Qed.

(** [contains] is the substring test. *)
Lemma contains_spec (sub s : string) :
  contains sub s = true <-> exists pre suf, s = pre ++ sub ++ suf.
Proof.
  induction s as [| c s IH].
  - change (contains sub "") with (String.prefix sub "" || false).
    rewrite orb_false_r, prefix_spec. split.
    + intros [suf H]. now exists "", suf.
    + intros (pre & suf & H). destruct pre; [now exists suf | discriminate H].
  - change (contains sub (String c s))
      with (String.prefix sub (String c s) || contains sub s).
    rewrite orb_true_iff, prefix_spec, IH. split.
    + intros [[suf H] | (pre & suf & H)].
      * now exists "", suf.
      * exists (String c pre), suf. simpl. now rewrite H.
    + intros (pre & suf & H). destruct pre as [| c' pre].
      * left. now exists suf.
      * right. injection H as _ H. now exists pre, suf.
Qed.

Lemma headers_empty_iff (url : string) (woo_key woo_secret : option string)
      (params : dict pyval) (now : Z) :
  _headers url woo_key woo_secret params now = Ok [] <-> contains "public" url = true.
Proof.
  unfold _headers. destruct (contains "public" url); [tauto |].
  split; [| discriminate].
  destruct woo_key as [key |]; [| discriminate].
  destruct woo_secret as [secret |]; [| discriminate].
  destruct (bind_kwargs "_get_headers" ["woo_key"; "woo_secret"] params); [| discriminate].
  simpl. unfold _get_headers.
  destruct (bind_kwargs "_get_signature" ["time_ms"; "woo_secret"] (sorted params));
    discriminate.
Qed.

(** X3. The REST helpers send no headers exactly for the URLs that have
    [public] somewhere inside, be it in the host, the path or the query: the
    test is a substring test, and neither the credentials nor the parameters
    matter to it. *)
Theorem public_anywhere_in_url (url : string) (woo_key woo_secret : option string)
        (params : dict pyval) (now : Z) :
  _headers url woo_key woo_secret params now = Ok []
  <-> exists pre suf, url = pre ++ "public" ++ suf.
Proof.
  rewrite headers_empty_iff. apply contains_spec.
Qed.

(** ** The parameters that are signed *)

Lemma sorted_of_sorted {V : Type} (l : dict V) : Sorted key_le l -> sorted l = l.
Proof.
  induction 1 as [| kv l Hs IH Hhd]; [reflexivity |].
  simpl. rewrite IH. destruct Hhd as [| kv' l' Hle]; [reflexivity |].
  simpl. unfold key_le in Hle. now rewrite Hle.
Qed.

(** X4. The signature in the REST headers covers the parameters of the call,
    each of them once, in ascending order of their keys; parameters given in
    that order are signed as given. *)
Theorem signed_parameters (key secret : string) (params : dict pyval) (now : Z)
        (headers : dict string) :
  _get_headers key secret params now = Ok headers ->
  exists signed,
    Permutation signed params
    /\ Sorted key_le signed
    /\ dict_get headers "x-api-signature" = Some (_get_signature now secret signed)
    /\ (Sorted key_le params -> signed = params).
Proof.
  unfold _get_headers. intros H.
  destruct (bind_kwargs "_get_signature" ["time_ms"; "woo_secret"] (sorted params));
    simpl in H; [| discriminate].
  injection H as <-. exists (sorted params).
  split; [apply sorted_perm | split; [apply sorted_is_sorted | split]].
  - reflexivity.
  - apply sorted_of_sorted.
Qed.

Lemma signed_parameters_example :
  exists signed,
    Permutation signed [("symbol", PStr "SPOT_BTC_USDT"); ("limit", PInt 10)]
    /\ Sorted key_le signed
    /\ dict_get [ ("Content-Type", "application/x-www-form-urlencoded");
                  ("x-api-key", "key");
                  ("x-api-signature",
                   _get_signature 1700000000000 "secret"
                     (sorted [("symbol", PStr "SPOT_BTC_USDT"); ("limit", PInt 10)]));
                  ("x-api-timestamp", str_int 1700000000000) ] "x-api-signature"
       = Some (_get_signature 1700000000000 "secret" signed)
    /\ (Sorted key_le [("symbol", PStr "SPOT_BTC_USDT"); ("limit", PInt 10)] ->
        signed = [("symbol", PStr "SPOT_BTC_USDT"); ("limit", PInt 10)]).
Proof.
  apply (signed_parameters "key" "secret"
           [("symbol", PStr "SPOT_BTC_USDT"); ("limit", PInt 10)] 1700000000000).
  reflexivity.
Defined.

(** ** When a REST call cannot be signed *)

Lemma bind_kwargs_raises {V : Type} (fname : string) (names : list string)
      (kwargs : dict V) (name : string) :
  In name (keys kwargs) -> In name names ->
  exists msg, bind_kwargs fname names kwargs = Raise (TypeError msg).
Proof.
  intros Hk Hn. unfold bind_kwargs.
  destruct (find _ kwargs) as [[k v] |] eqn:Hf; [eauto |].
  exfalso. unfold keys in Hk. apply in_map_iff in Hk. destruct Hk as [[k v] [<- Hin]].
  assert (H := find_none _ _ Hf _ Hin). simpl in H.
  assert (Hex : existsb (String.eqb k) names = true).
  { apply existsb_exists. exists k. split; [assumption | apply String.eqb_refl]. }
  congruence.
Qed.

Lemma headers_type_error_iff (url : string) (woo_key woo_secret : option string)
      (params : dict pyval) (now : Z) :
  (forall k, In k (keys params) -> ~ In k own_names) ->
  (exists msg, _headers url woo_key woo_secret params now = Raise (TypeError msg))
  <-> (contains "public" url = false /\ woo_key <> None /\ woo_secret <> None
       /\ In "time_ms" (keys params)).
Proof.
  intros Hown.
  assert (B2 : bind_kwargs "_get_headers" ["woo_key"; "woo_secret"] params = Ok tt).
  { apply bind_kwargs_ok. intros k Hk Hin. apply (Hown k Hk). now right. }
  unfold _headers.
  destruct (contains "public" url).
  { split; [intros [msg H]; discriminate H | intros [H _]; discriminate H]. }
  destruct woo_key as [key |].
  2:{ split; [intros [msg H]; discriminate H | intros (_ & H & _); now destruct H]. }
  destruct woo_secret as [secret |].
  2:{ split; [intros [msg H]; discriminate H | intros (_ & _ & H & _); now destruct H]. }
  rewrite B2. simpl. unfold _get_headers.
  destruct (in_dec string_dec "time_ms" (keys params)) as [Hin | Hnot].
  - assert (Hs : In "time_ms" (keys (sorted params))).
    { unfold keys in *. eapply Permutation_in; [| exact Hin].
      apply Permutation_map, Permutation_sym, sorted_perm. }
    destruct (bind_kwargs_raises "_get_signature" ["time_ms"; "woo_secret"]
                (sorted params) "time_ms" Hs (or_introl eq_refl)) as [msg ->].
    simpl. split; [| eauto]. intros _. repeat split; (discriminate || assumption).
  - rewrite bind_kwargs_ok.
    + simpl. split; [intros [msg H]; discriminate H | intros (_ & _ & _ & H); contradiction].
    + intros k Hk Hin. apply keys_sorted in Hk.
      destruct Hin as [<- | [<- | []]]; [exact (Hnot Hk) |].
      apply (Hown _ Hk). right. right. now left.
Qed.

(** X5. A REST call ends in a [TypeError] in exactly one situation: the URL
    does not contain [public], both credentials are given, and one of the
    query parameters is named [time_ms].  On a [public] URL, or with a
    credential missing, a parameter of that name is harmless. *)
Theorem rest_type_error_iff (url : string) (woo_key woo_secret : option string)
        (params : dict pyval) (now : Z) :
  (forall k, In k (keys params) -> ~ In k own_names) ->
  let unsignable :=
    contains "public" url = false /\ woo_key <> None /\ woo_secret <> None
    /\ In "time_ms" (keys params) in
  ((exists msg, get url woo_key woo_secret params now = Raise (TypeError msg)) <-> unsignable)
  /\ ((exists msg, post url woo_key woo_secret params now = Raise (TypeError msg)) <-> unsignable)
  /\ ((exists msg, delete url woo_key woo_secret params now = Raise (TypeError msg)) <-> unsignable).
Proof.
  intros Hown unsignable. subst unsignable.
  assert (B1 : bind_kwargs "_headers" ["url"; "woo_key"; "woo_secret"] params = Ok tt)
    by (apply bind_kwargs_ok; exact Hown).
  assert (H := headers_type_error_iff url woo_key woo_secret params now Hown).
  unfold get, post, delete. rewrite B1. simpl.
  destruct (_headers url woo_key woo_secret params now) as [headers | e]; simpl;
    (split; [| split]);
    (split;
     [ intros [msg Hm]; try discriminate Hm; apply H; exists msg; congruence
     | intros Hu; apply H in Hu; destruct Hu as [msg Hm]; try discriminate Hm;
       exists msg; congruence ]).
Qed.

Lemma rest_type_error_example :
  (exists msg, get "https://api.woo.org/v1/public/info" (Some "key") (Some "secret")
                   [("time_ms", PInt 1)] 1700000000000 = Raise (TypeError msg))
  <-> (contains "public" "https://api.woo.org/v1/public/info" = false
       /\ Some "key" <> None /\ Some "secret" <> None
       /\ In "time_ms" (keys [("time_ms", PInt 1)])).
Proof.
  apply (rest_type_error_iff "https://api.woo.org/v1/public/info" (Some "key") (Some "secret")
           [("time_ms", PInt 1)] 1700000000000).
  intros k [<- | []]. simpl. intuition discriminate.
Defined.

(** ** Headers and the clock *)

(** X6. The headers of two REST calls signed at different clock readings
    are never the same, whatever the credentials and the parameters of the
    two calls: the timestamp header tells them apart. *)
Theorem headers_differ_with_clock (key key' secret secret' : string)
        (params params' : dict pyval) (t t' : Z) (headers headers' : dict string) :
  t <> t' ->
  _get_headers key secret params t = Ok headers ->
  _get_headers key' secret' params' t' = Ok headers' ->
  dict_get headers "x-api-timestamp" <> dict_get headers' "x-api-timestamp"
  /\ headers <> headers'.
Proof.
  unfold _get_headers. intros Ht H H'.
  destruct (bind_kwargs "_get_signature" ["time_ms"; "woo_secret"] (sorted params));
    simpl in H; [| discriminate].
  destruct (bind_kwargs "_get_signature" ["time_ms"; "woo_secret"] (sorted params'));
    simpl in H'; [| discriminate].
  injection H as <-. injection H' as <-.
  assert (Hts : Some (str_int t) <> Some (str_int t')).
  { intros [= Heq]. apply Ht. now apply str_int_inj. }
  split; [exact Hts |].
  intros Heq. apply Hts.
  change (dict_get [ ("Content-Type", "application/x-www-form-urlencoded");
                     ("x-api-key", key);
                     ("x-api-signature", _get_signature t secret (sorted params));
                     ("x-api-timestamp", str_int t) ] "x-api-timestamp"
          = Some (str_int t')).
  rewrite Heq. reflexivity.
Qed.

Lemma headers_differ_with_clock_example :
  dict_get [ ("Content-Type", "application/x-www-form-urlencoded");
             ("x-api-key", "key");
             ("x-api-signature", _get_signature 1700000000000 "secret" (sorted []));
             ("x-api-timestamp", str_int 1700000000000) ] "x-api-timestamp"
  <> dict_get [ ("Content-Type", "application/x-www-form-urlencoded");
                ("x-api-key", "key");
                ("x-api-signature", _get_signature 1700000000001 "secret" (sorted []));
                ("x-api-timestamp", str_int 1700000000001) ] "x-api-timestamp".
Proof.
  apply (headers_differ_with_clock "key" "key" "secret" "secret" [] []
           1700000000000 1700000000001).
  - lia.
  - reflexivity.
  - reflexivity.
Defined.

(** ** The outcome of a REST call *)

(** X1. What a REST helper does with parameters it can be given.  On a URL
    that contains [public] the request goes out with the URL and the
    parameters as given and no headers.  Otherwise a missing key is a
    [ValueError] that names the key and the URL, a missing secret (the key
    being there) one that names the secret, whatever the parameters; and with
    both credentials and no parameter named [time_ms] the request carries the
    four signed headers.  The three helpers differ in the method only. *)
Theorem rest_call_outcome (url : string) (woo_key woo_secret : option string)
        (params : dict pyval) (now : Z) :
  (forall k, In k (keys params) -> ~ In k own_names) ->
  (contains "public" url = true ->
   get url woo_key woo_secret params now = Ok (Request GET url params [])
   /\ post url woo_key woo_secret params now = Ok (Request POST url params [])
   /\ delete url woo_key woo_secret params now = Ok (Request DELETE url params []))
  /\ (contains "public" url = false -> woo_key = None ->
      let error :=
        ValueError ("The API Key is required for the private endpoint " ++ url ++ ".") in
      get url woo_key woo_secret params now = Raise error
      /\ post url woo_key woo_secret params now = Raise error
      /\ delete url woo_key woo_secret params now = Raise error)
  /\ (contains "public" url = false -> woo_key <> None -> woo_secret = None ->
      let error :=
        ValueError ("The API Secret is required for the private endpoint " ++ url ++ ".") in
      get url woo_key woo_secret params now = Raise error
      /\ post url woo_key woo_secret params now = Raise error
      /\ delete url woo_key woo_secret params now = Raise error)
  /\ (forall key secret,
        contains "public" url = false -> woo_key = Some key -> woo_secret = Some secret ->
        ~ In "time_ms" (keys params) ->
        let headers :=
          [ ("Content-Type", "application/x-www-form-urlencoded");
            ("x-api-key", key);
            ("x-api-signature", _get_signature now secret (sorted params));
            ("x-api-timestamp", str_int now) ] in
        get url woo_key woo_secret params now = Ok (Request GET url params headers)
        /\ post url woo_key woo_secret params now = Ok (Request POST url params headers)
        /\ delete url woo_key woo_secret params now = Ok (Request DELETE url params headers)).
Proof.
  intros Hown.
  assert (B1 : bind_kwargs "_headers" ["url"; "woo_key"; "woo_secret"] params = Ok tt)
    by (apply bind_kwargs_ok; exact Hown).
  assert (B2 : bind_kwargs "_get_headers" ["woo_key"; "woo_secret"] params = Ok tt).
  { apply bind_kwargs_ok. intros k Hk Hin. apply (Hown k Hk). now right. }
  unfold get, post, delete, _headers. rewrite B1. simpl.
  split; [| split; [| split]].
  - intros ->. simpl. auto.
  - intros -> ->. simpl. auto.
  - intros -> Hkey ->. destruct woo_key; [| now destruct Hkey]. simpl. auto.
  - intros key secret -> -> -> Htime. rewrite B2. simpl. unfold _get_headers.
    rewrite bind_kwargs_ok; [simpl; auto |].
    intros k Hk Hin. apply keys_sorted in Hk.
    destruct Hin as [<- | [<- | []]]; [exact (Htime Hk) |].
    apply (Hown _ Hk). right. right. now left.
Qed.

Lemma rest_call_outcome_example :
  let error :=
    ValueError "The API Secret is required for the private endpoint https://api.woo.org/v1/orders." in
  get "https://api.woo.org/v1/orders" (Some "key") None
      [("symbol", PStr "SPOT_BTC_USDT")] 1700000000000 = Raise error
  /\ post "https://api.woo.org/v1/orders" (Some "key") None
          [("symbol", PStr "SPOT_BTC_USDT")] 1700000000000 = Raise error
  /\ delete "https://api.woo.org/v1/orders" (Some "key") None
            [("symbol", PStr "SPOT_BTC_USDT")] 1700000000000 = Raise error.
Proof.
  destruct (rest_call_outcome "https://api.woo.org/v1/orders" (Some "key") None
              [("symbol", PStr "SPOT_BTC_USDT")] 1700000000000) as (_ & _ & H & _).
  - intros k [<- | []]. simpl. intuition discriminate.
  - apply H; [reflexivity | discriminate | reflexivity].
Defined.

(** ** More on the listener *)

Lemma output_app (tr1 tr2 : list event) :
  output (tr1 ++ tr2) = (output tr1 ++ output tr2)%list.
Proof.
  induction tr1 as [| ev tr1 IH]; [reflexivity |].
  destruct ev; simpl; rewrite IH; reflexivity.
Qed.

Lemma output_quiet (evs : list event) :
  forallb (fun e => negb (is_put e)) evs = true -> output evs = [].
Proof.
  induction evs as [| ev evs IH]; [reflexivity |].
  simpl. intros H. apply andb_true_iff in H. destruct H as [Hev Hevs].
  destruct ev; simpl in *; (discriminate || auto).
Qed.

Section ListenerMore.

Variable json_dumps : json -> string.
Variable json_loads : string -> option json.
Variable url : string.
Variable topics : list string.
Variable woo_key woo_secret : option string.

Abbreviation step := (step json_dumps json_loads url topics woo_key woo_secret).
Abbreviation run := (run json_dumps json_loads url topics woo_key woo_secret).
Abbreviation _listener := (_listener json_dumps json_loads url topics woo_key woo_secret).
Abbreviation inner_except := (inner_except url).
Abbreviation _get_auth_message := (_get_auth_message json_dumps).
Abbreviation forwarded := (forwarded json_loads).
Abbreviation sendable := (sendable json_dumps url topics woo_key woo_secret).
Abbreviation sends_protocol := (sends_protocol json_dumps url topics woo_key woo_secret).
Abbreviation state_ok := (state_ok url topics woo_key woo_secret).

Lemma forwarded_app (tr1 tr2 : list event) :
  forwarded (tr1 ++ tr2) = (forwarded tr1 ++ forwarded tr2)%list.
Proof. apply flat_map_app. Qed.

Lemma forwarded_quiet (evs : list event) :
  forallb (fun e => negb (is_received e)) evs = true -> forwarded evs = [].
Proof.
  induction evs as [| ev evs IH]; [reflexivity |].
  simpl. intros H. apply andb_true_iff in H. destruct H as [Hev Hevs].
  destruct ev; simpl in *; (discriminate || auto).
Qed.

(** *** What reaches the queue *)

Lemma step_output_forwarded (s : state) (i : io) :
  output (fst (step s i)) = forwarded (fst (step s i)).
Proof.
  assert (Hq : forall evs,
             forallb (fun e => negb (is_put e)) evs = true ->
             forallb (fun e => negb (is_received e)) evs = true ->
             output evs = forwarded evs).
  { intros evs Hp Hr. now rewrite output_quiet, forwarded_quiet. }
  assert (Hexc : forall ev e, is_put ev = false -> is_received ev = false ->
                              output (fst (after [ev] (inner_except e)))
                              = forwarded (fst (after [ev] (inner_except e)))).
  { intros ev e Hp Hr.
    destruct (inner_except_restarted url e) as (_ & Hput & Hrecv).
    apply Hq; simpl; [rewrite Hp | rewrite Hr]; assumption. }
  unfold step. destruct s.
  - destruct (outcome i) as [x | e].
    + destruct (contains "private" url);
        [destruct woo_key; [destruct woo_secret |] |];
        first [apply Hexc; reflexivity | apply Hq; reflexivity].
    + destruct (outer_except_restarted e) as (_ & Hput & Hrecv).
      apply Hq; simpl; assumption.
  - destruct (outcome i); first [apply Hexc; reflexivity | apply Hq; reflexivity].
  - destruct (outcome i); first [apply Hexc; reflexivity | apply Hq; reflexivity].
  - destruct (outcome i) as [msg | e]; [| apply Hexc; reflexivity].
    destruct (json_loads msg) as [obj |] eqn:Hl; [destruct (is_ping obj) eqn:Hping |];
      simpl; rewrite Hl; try rewrite Hping; reflexivity.
  - destruct (outcome i); first [apply Hexc; reflexivity | apply Hq; reflexivity].
  - reflexivity.
Qed.

Lemma run_output_forwarded (script : list io) (s : state) :
  output (fst (run s script)) = forwarded (fst (run s script)).
Proof.
  revert s. induction script as [| i script IH]; intros s; [reflexivity |].
  rewrite run_cons. simpl.
  now rewrite output_app, forwarded_app, step_output_forwarded, IH.
Qed.

(** X7. What a listener puts on the queue is exactly the frames it
    received that decode to something other than a ping, decoded, each once
    and in the order received: nothing is lost, repeated, reordered or
    invented. *)
Theorem output_is_forwarded (script : list io) :
  output (_listener script) = forwarded (_listener script).
Proof. apply run_output_forwarded. Qed.

(** *** The listener does not stop by itself *)

Lemma except_logs (e : exn) :
  e <> CancelledError ->
  snd (inner_except e) = Connecting /\ filter is_io (fst (inner_except e)) = []
  /\ snd (outer_except e) = Connecting /\ filter is_io (fst (outer_except e)) = [].
Proof.
  intros He. destruct e; try (now destruct He); repeat split.
Qed.

Lemma step_progress (s : state) (i : io) :
  s <> Cancelled -> outcome i <> Raise CancelledError ->
  snd (step s i) <> Cancelled
  /\ List.length (filter is_io (fst (step s i))) = 1%nat.
Proof.
  intros Hs Hi.
  assert (Hexc : forall ev e, outcome i = Raise e -> is_io ev = true ->
                              snd (after [ev] (inner_except e)) <> Cancelled
                              /\ List.length (filter is_io (fst (after [ev] (inner_except e)))) = 1%nat).
  { intros ev e He Hev.
    assert (Hne : e <> CancelledError) by (intros ->; now apply Hi).
    destruct (except_logs e Hne) as (Hst & Hio & _).
    simpl. rewrite Hst, Hev. simpl. rewrite Hio. split; [discriminate | reflexivity]. }
  unfold step. destruct s; try (now destruct Hs).
  - destruct (outcome i) as [x | e] eqn:Ho.
    + destruct (contains "private" url);
        [destruct woo_key; [destruct woo_secret |] |];
        simpl; try (split; [discriminate | reflexivity]).
      destruct topics; simpl; split; (discriminate || reflexivity).
    + assert (Hne : e <> CancelledError) by (intros ->; now apply Hi).
      destruct (except_logs e Hne) as (_ & _ & Hst & Hio).
      simpl. rewrite Hst, Hio. split; [discriminate | reflexivity].
  - destruct (outcome i) as [x | e] eqn:Ho; [| now apply Hexc].
    destruct topics; simpl; split; (discriminate || reflexivity).
  - destruct (outcome i) as [x | e] eqn:Ho; [| now apply Hexc].
    destruct rest; simpl; split; (discriminate || reflexivity).
  - destruct (outcome i) as [msg | e] eqn:Ho; [| now apply Hexc].
    destruct (json_loads msg) as [obj |]; [destruct (is_ping obj) |];
      simpl; split; (discriminate || reflexivity).
  - destruct (outcome i) as [x | e] eqn:Ho; [| now apply Hexc].
    simpl; split; (discriminate || reflexivity).
Qed.

Lemma run_progress (script : list io) (s : state) :
  never_cancelled script -> s <> Cancelled ->
  snd (run s script) <> Cancelled
  /\ List.length (filter is_io (fst (run s script))) = List.length script.
Proof.
  intros Hscript. revert s.
  induction Hscript as [| i script Hi _ IH]; intros s Hs; [split; [exact Hs | reflexivity] |].
  rewrite run_cons. simpl.
  destruct (step_progress s i Hs Hi) as [Hs' Hone].
  destruct (IH _ Hs') as [Hfinal Hcount].
  split; [exact Hfinal |].
  rewrite filter_app, length_app, Hone, Hcount. reflexivity.
Qed.

(** X8. Short of a cancellation the listener never stops and never stalls:
    whatever the environment answers (closed connections, frames that do not
    decode, any exception), it is still running afterwards, and it has
    performed exactly one network operation per answer. *)
Theorem listener_never_stops (script : list io) :
  never_cancelled script ->
  snd (run Connecting script) <> Cancelled
  /\ List.length (filter is_io (_listener script)) = List.length script.
Proof.
  intros H. apply run_progress; [exact H | discriminate].
Qed.

(** *** Cancellation *)

Lemma step_cancelled (s : state) (i : io) :
  outcome i = Raise CancelledError ->
  snd (step s i) = Cancelled
  /\ (List.length (fst (step s i)) <= 1)%nat
  /\ Forall (fun ev => is_io ev = true) (fst (step s i)).
Proof.
  intros Hi. unfold step. rewrite Hi.
  destruct s; simpl; repeat split; auto.
Qed.

Lemma run_cancelled (script : list io) : run Cancelled script = ([], Cancelled).
Proof.
  induction script as [| i script IH]; [reflexivity |].
  rewrite run_cons. simpl. now rewrite IH.
Qed.

(** X9. A cancellation ends the listener for good and in silence: the
    cancelled operation is the last thing it does, no warning is logged for
    it, and whatever the environment answers afterwards has no effect. *)
Theorem cancellation_is_final (script1 : list io) (i : io) (script2 : list io) :
  outcome i = Raise CancelledError ->
  snd (run Connecting (script1 ++ i :: script2)) = Cancelled
  /\ exists last,
       _listener (script1 ++ i :: script2) = (_listener script1 ++ last)%list
       /\ (List.length last <= 1)%nat
       /\ Forall (fun ev => is_io ev = true) last.
Proof.
  intros Hi.
  destruct (step_cancelled (snd (run Connecting script1)) i Hi) as (Hst & Hlen & Hio).
  split.
  - rewrite run_app, run_cons. simpl. rewrite Hst, run_cancelled. reflexivity.
  - exists (fst (step (snd (run Connecting script1)) i)).
    split; [| split; assumption].
    unfold _listener. rewrite run_app, run_cons. simpl.
    rewrite Hst, run_cancelled. simpl. now rewrite app_nil_r.
Qed.

(** *** A frame that does not decode *)

Lemma connecting_starts_with_connect (script : list io) :
  starts_with_connect url (fst (run Connecting script)).
Proof.
  destruct script as [| i script]; [now left |].
  rewrite run_cons. unfold step.
  destruct (outcome i) as [x | e].
  - right. left.
    destruct (contains "private" url);
      [destruct woo_key; [destruct woo_secret |] |]; simpl; eauto.
  - right. right. simpl. eauto.
Qed.

Lemma undecodable_restarts (script : list io) (s : state)
      (pre : list event) (msg : string) (post : list event) :
  fst (run s script) = (pre ++ Received msg :: post)%list ->
  json_loads msg = None ->
  exists script', post = LogRestart JSONDecodeError :: fst (run Connecting script').
Proof.
  revert s pre. induction script as [| i script IH]; intros s pre Htr Hnone.
  - destruct pre; discriminate Htr.
  - rewrite run_cons in Htr. simpl in Htr.
    assert (Hskip : forall evs s' pre0,
               forallb (fun e => negb (is_received e)) evs = true ->
               (evs ++ fst (run s' script) = pre0 ++ Received msg :: post)%list ->
               exists script', post = LogRestart JSONDecodeError :: fst (run Connecting script')).
    { intros evs s' pre0 Hevs Heq.
      destruct (split_skip is_received evs _ pre0 (Received msg) post Hevs eq_refl Heq)
        as [pre' [_ Htl]].
      exact (IH s' pre' Htl Hnone). }
    assert (Hexc : forall ev e pre0,
               is_received ev = false ->
               (fst (after [ev] (inner_except e)) ++
                fst (run (snd (after [ev] (inner_except e))) script)
                = pre0 ++ Received msg :: post)%list ->
               exists script', post = LogRestart JSONDecodeError :: fst (run Connecting script')).
    { intros ev e pre0 Hev. apply Hskip.
      simpl. rewrite Hev. simpl.
      apply (inner_except_restarted url e). }
    unfold step in Htr.
    destruct s; simpl in Htr.
    + destruct (outcome i) as [x | e].
      * destruct (contains "private" url);
          [destruct woo_key; [destruct woo_secret |] |];
          revert Htr; first [apply Hexc; reflexivity | apply Hskip; reflexivity].
      * revert Htr. apply Hskip. simpl.
        apply (outer_except_restarted e).
    + destruct (outcome i) as [x | e]; revert Htr;
        first [apply Hexc; reflexivity | apply Hskip; reflexivity].
    + destruct (outcome i) as [x | e]; revert Htr;
        first [apply Hexc; reflexivity | apply Hskip; reflexivity].
    + destruct (outcome i) as [msg0 | e]; [| revert Htr; apply Hexc; reflexivity].
      destruct pre as [| p pre].
      * destruct (json_loads msg0) as [obj0 |] eqn:Hl;
          [destruct (is_ping obj0) |]; simpl in Htr;
          injection Htr as Hm Hpost; subst msg0; rewrite Hnone in Hl;
          try discriminate Hl.
        exists script. now rewrite <- Hpost.
      * destruct (json_loads msg0) as [obj0 |];
          [destruct (is_ping obj0) |]; simpl in Htr;
          injection Htr as _ Htr; revert Htr.
        -- apply (Hskip [] Ponging pre). reflexivity.
        -- apply (Hskip [Put obj0] Receiving pre). reflexivity.
        -- apply (Hskip [LogRestart JSONDecodeError] Connecting pre). reflexivity.
    + destruct (outcome i) as [x | e]; revert Htr;
        first [apply Hexc; reflexivity | apply Hskip; reflexivity].
    + revert Htr. apply (Hskip [] Cancelled pre). reflexivity.
Qed.

(** X11. A frame that [json.loads] rejects is not delivered: the listener
    logs the decoding error, gives the connection up, and the next thing it
    does is to connect again. *)
Theorem undecodable_frame_restarts (script : list io) (pre : list event)
        (msg : string) (post : list event) :
  _listener script = (pre ++ Received msg :: post)%list ->
  json_loads msg = None ->
  exists post',
    post = LogRestart JSONDecodeError :: post'
    /\ starts_with_connect url post'
    /\ forwarded [Received msg] = [].
Proof.
  intros Htr Hnone.
  destruct (undecodable_restarts script Connecting pre msg post Htr Hnone) as [script' ->].
  eexists. split; [reflexivity | split; [apply connecting_starts_with_connect |]].
  simpl. now rewrite Hnone.
Qed.

(** *** The retry loop without credentials *)


(** *** The frames a listener sends *)

Lemma state_ok_subscribing (l : list string) :
  (forall t, In t l -> In t topics) -> state_ok (subscribing l).
Proof. destruct l; simpl; auto. Qed.

Lemma except_sends_nothing (e : exn) :
  Forall sends_protocol (fst (inner_except e)) /\ state_ok (snd (inner_except e))
  /\ Forall sends_protocol (fst (outer_except e)) /\ state_ok (snd (outer_except e)).
Proof. destruct e; simpl; repeat split; repeat constructor. Qed.

Lemma step_sends_protocol (s : state) (i : io) :
  state_ok s ->
  Forall sends_protocol (fst (step s i)) /\ state_ok (snd (step s i)).
Proof.
  intros Hs.
  assert (Hexc : forall frame e, sendable frame ->
                                 Forall sends_protocol (fst (after [SendFailed frame e] (inner_except e)))
                                 /\ state_ok (snd (after [SendFailed frame e] (inner_except e)))).
  { intros frame e Hf. destruct (except_sends_nothing e) as (Hall & Hst & _).
    split; [constructor; assumption | exact Hst]. }
  unfold step. destruct s.
  - destruct (outcome i) as [x | e].
    + destruct (contains "private" url) eqn:Hpriv;
        [destruct woo_key as [key |] eqn:Hkey;
         [destruct woo_secret as [secret |] eqn:Hsecret |] |].
      * split; [repeat constructor | simpl; auto].
      * split; [repeat constructor | exact I].
      * split; [repeat constructor | exact I].
      * split; [repeat constructor | apply state_ok_subscribing; auto].
    + destruct (except_sends_nothing e) as (_ & _ & Hall & Hst).
      split; [constructor; [exact I | exact Hall] | exact Hst].
  - assert (Hf : sendable (_get_auth_message woo_key0 woo_secret0 (clock_ms i))).
    { destruct Hs as (Hpriv & Hkey & Hsecret). right. right. split; [exact Hpriv |].
      exists woo_key0, woo_secret0, (clock_ms i). auto. }
    destruct (outcome i) as [x | e]; [| now apply Hexc].
    split; [constructor; [exact Hf | constructor] | apply state_ok_subscribing; auto].
  - assert (Hf : sendable (json_dumps (subscribe_object topic))).
    { right. left. exists topic. split; [apply Hs; now left | reflexivity]. }
    destruct (outcome i) as [x | e]; [| now apply Hexc].
    split; [constructor; [exact Hf | constructor] |].
    apply state_ok_subscribing. intros t Ht. apply Hs. now right.
  - destruct (outcome i) as [msg | e].
    + destruct (json_loads msg) as [obj |]; [destruct (is_ping obj) |];
        split; repeat constructor.
    + destruct (except_sends_nothing e) as (Hall & Hst & _).
      split; [constructor; [exact I | exact Hall] | exact Hst].
  - assert (Hf : sendable (json_dumps pong_object)) by now left.
    destruct (outcome i) as [x | e]; [| now apply Hexc].
    split; [constructor; [exact Hf | constructor] | exact I].
  - split; [constructor | exact I].
Qed.

Lemma run_sends_protocol (script : list io) (s : state) :
  state_ok s -> Forall sends_protocol (fst (run s script)).
Proof.
  revert s. induction script as [| i script IH]; intros s Hs; [constructor |].
  rewrite run_cons. simpl.
  destruct (step_sends_protocol s i Hs) as [Hall Hs'].
  apply Forall_app. split; [exact Hall | apply IH, Hs'].
Qed.

(** X13. A listener only ever sends frames of the protocol: the pong, a
    subscription to one of its topics and, on a URL that contains [private]
    and with both credentials, the auth frame.  In particular it sends no
    auth frame on any other URL, and with no topics it sends no
    subscription. *)
Theorem listener_sends_protocol_only (script : list io) :
  Forall sends_protocol (_listener script)
  /\ (forall frame, In (Sent frame) (_listener script) -> sendable frame).
Proof.
  assert (H : Forall sends_protocol (_listener script))
    by (apply run_sends_protocol; exact I).
  split; [exact H |].
  intros frame Hin. rewrite Forall_forall in H. exact (H _ Hin).
Qed.

End ListenerMore.

(** X10. On a URL that does not contain [private] the credentials play no
    part: the listener does the same whatever key and secret it is given,
    none included. *)
Theorem credentials_unused_off_private
        (json_dumps : json -> string) (json_loads : string -> option json)
        (url : string) (topics : list string)
        (woo_key woo_secret woo_key' woo_secret' : option string) (script : list io) :
  contains "private" url = false ->
  _listener json_dumps json_loads url topics woo_key woo_secret script
  = _listener json_dumps json_loads url topics woo_key' woo_secret' script.
Proof.
  intros Hpriv. unfold _listener. f_equal.
  generalize Connecting as s.
  induction script as [| i script IH]; intros s; [reflexivity |].
  simpl.
  assert (Hstep : step json_dumps json_loads url topics woo_key woo_secret s i
                  = step json_dumps json_loads url topics woo_key' woo_secret' s i).
  { unfold step. destruct s; try reflexivity. now rewrite Hpriv. }
  now rewrite Hstep, IH.
Qed.

(** ** The aggregator *)

Lemma nth_error_set_nth_eq {A : Type} (k : nat) (x y : A) (l : list A) :
  nth_error l k = Some y -> nth_error (set_nth k x l) k = Some x.
Proof.
  revert k. induction l as [| z l IH]; intros [| k] H; simpl in *;
    try discriminate; auto.
Qed.

Lemma nth_error_set_nth_neq {A : Type} (k j : nat) (x : A) (l : list A) :
  k <> j -> nth_error (set_nth k x l) j = nth_error l j.
Proof.
  revert k j. induction l as [| z l IH]; intros [| k] [| j] H; simpl;
    try reflexivity; [now destruct H | apply IH; congruence].
Qed.

Lemma events_of_app (k : nat) (tr1 tr2 : list (nat * event)) :
  events_of k (tr1 ++ tr2) = (events_of k tr1 ++ events_of k tr2)%list.
Proof. unfold events_of. now rewrite filter_app, map_app. Qed.

Lemma events_of_same (k : nat) (evs : list event) :
  events_of k (map (pair k) evs) = evs.
Proof.
  unfold events_of. induction evs as [| ev evs IH]; [reflexivity |].
  simpl. rewrite Nat.eqb_refl. simpl. now rewrite IH.
Qed.

Lemma events_of_other (k j : nat) (evs : list event) :
  j <> k -> events_of k (map (pair j) evs) = [].
Proof.
  intros Hne. unfold events_of. induction evs as [| ev evs IH]; [reflexivity |].
  simpl. apply Nat.eqb_neq in Hne. now rewrite Hne.
Qed.

Lemma output_tagged (tr : list (nat * event)) (obj : json) :
  In obj (output (map snd tr)) -> exists k, In (k, Put obj) tr.
Proof.
  induction tr as [| [k ev] tr IH]; simpl; [intros [] |].
  destruct ev; simpl;
    try (intros H; destruct (IH H) as [k' Hk']; exists k'; now right).
  intros [-> | H]; [exists k; now left |].
  destruct (IH H) as [k' Hk']. exists k'. now right.
Qed.

Lemma events_of_in (k : nat) (ev : event) (tr : list (nat * event)) :
  In (k, ev) tr -> In ev (events_of k tr).
Proof.
  intros H. unfold events_of. apply in_map_iff. exists (k, ev).
  split; [reflexivity |]. apply filter_In. split; [exact H | apply Nat.eqb_refl].
Qed.

Section AggregatorFacts.

Variable json_dumps : json -> string.
Variable json_loads : string -> option json.
Variable topics_by_url : dict (list string).
Variable woo_key woo_secret : option string.

Abbreviation resume := (resume json_dumps json_loads topics_by_url woo_key woo_secret).
Abbreviation gather := (gather json_dumps json_loads topics_by_url woo_key woo_secret).
Abbreviation _all_listeners :=
  (_all_listeners json_dumps json_loads topics_by_url woo_key woo_secret).
Abbreviation tasks := (tasks topics_by_url).
Abbreviation start := (start topics_by_url).
Abbreviation act := (act json_dumps json_loads topics_by_url woo_key woo_secret).
Abbreviation session_run :=
  (session_run json_dumps json_loads topics_by_url woo_key woo_secret).
Abbreviation recv_all := (recv_all json_dumps json_loads topics_by_url woo_key woo_secret).

Lemma gather_cons (running : list state) (k : nat) (i : io) (schedule : list (nat * io)) :
  gather running ((k, i) :: schedule)
  = ((fst (resume running k i) ++ fst (gather (snd (resume running k i)) schedule))%list,
     snd (gather (snd (resume running k i)) schedule)).
Proof. reflexivity. Qed.

(** A listener sees its own answers only, and is seen by them only. *)
Lemma gather_projection (schedule : list (nat * io)) (running : list state)
      (k : nat) (url : string) (topics : list string) (s : state) :
  nth_error topics_by_url k = Some (url, topics) ->
  nth_error running k = Some s ->
  events_of k (fst (gather running schedule))
  = fst (run json_dumps json_loads url topics woo_key woo_secret s (answers_to k schedule))
  /\ nth_error (snd (gather running schedule)) k
     = Some (snd (run json_dumps json_loads url topics woo_key woo_secret s
                      (answers_to k schedule))).
Proof.
  intros Hk. revert running s.
  induction schedule as [| [j i] schedule IH]; intros running s Hs;
    [split; [reflexivity | exact Hs] |].
  rewrite gather_cons. cbn [fst snd]. rewrite events_of_app.
  unfold answers_to. simpl filter.
  destruct (Nat.eqb_spec j k) as [-> | Hne].
  - unfold resume at 1 2 3. rewrite Hk, Hs. cbn [fst snd map].
    rewrite events_of_same.
    destruct (IH (set_nth k (snd (step json_dumps json_loads url topics woo_key woo_secret s i))
                          running)
                 (snd (step json_dumps json_loads url topics woo_key woo_secret s i))
                 (nth_error_set_nth_eq _ _ _ _ Hs)) as [Hev Hst].
    rewrite Hev, Hst. fold (answers_to k schedule). split; reflexivity.
  - assert (Hres : events_of k (fst (resume running j i)) = []
                   /\ nth_error (snd (resume running j i)) k = Some s).
    { unfold resume. destruct (nth_error topics_by_url j) as [[u t] |];
        [destruct (nth_error running j) |]; cbn [fst snd];
        try (split; [reflexivity | exact Hs]).
      split; [now apply events_of_other |].
      now rewrite nth_error_set_nth_neq. }
    destruct Hres as [Hnil Hs'].
    rewrite Hnil. simpl app.
    exact (IH _ _ Hs').
Qed.

Lemma nth_error_tasks (k : nat) (item : string * list string) :
  nth_error topics_by_url k = Some item -> nth_error tasks k = Some Connecting.
Proof.
  intros H. unfold tasks. now rewrite nth_error_map, H.
Qed.

(** X14. Under [_all_listeners] each listener behaves as it would alone:
    what the listener of an item does is what [_listener] does with the
    answers given to it, however the event loop interleaves it with the
    others and whatever happens to them. *)
Theorem listeners_are_independent (schedule : list (nat * io))
        (k : nat) (url : string) (topics : list string) :
  nth_error topics_by_url k = Some (url, topics) ->
  events_of k (_all_listeners schedule)
  = _listener json_dumps json_loads url topics woo_key woo_secret (answers_to k schedule).
Proof.
  intros Hk. unfold _all_listeners.
  apply (gather_projection schedule tasks k url topics Connecting Hk).
  exact (nth_error_tasks k _ Hk).
Qed.

Lemma gather_tags (schedule : list (nat * io)) (running : list state)
      (k : nat) (ev : event) :
  In (k, ev) (fst (gather running schedule)) ->
  exists url topics, nth_error topics_by_url k = Some (url, topics).
Proof.
  revert running. induction schedule as [| [j i] schedule IH]; intros running Hin;
    [destruct Hin |].
  rewrite gather_cons in Hin. cbn [fst] in Hin. apply in_app_or in Hin.
  destruct Hin as [Hin | Hin]; [| exact (IH _ Hin)].
  unfold resume in Hin.
  destruct (nth_error topics_by_url j) as [[u t] |] eqn:Hj;
    [destruct (nth_error running j) |]; cbn [fst] in Hin; try destruct Hin.
  apply in_map_iff in Hin. destruct Hin as [ev' [[= <- _] _]]. eauto.
Qed.

(** X15. Every object on the shared queue was received by one of the
    listeners, as a frame that decodes to it, and is not a ping. *)
Theorem merged_output_is_received (schedule : list (nat * io)) (obj : json) :
  In obj (output (map snd (_all_listeners schedule))) ->
  is_ping obj = false
  /\ exists k url topics msg,
       nth_error topics_by_url k = Some (url, topics)
       /\ In (Received msg)
             (_listener json_dumps json_loads url topics woo_key woo_secret
                        (answers_to k schedule))
       /\ json_loads msg = Some obj.
Proof.
  intros Hin. apply output_tagged in Hin. destruct Hin as [k Hin].
  unfold _all_listeners in Hin.
  destruct (gather_tags _ _ _ _ Hin) as (url & topics & Hk).
  apply events_of_in in Hin.
  destruct (gather_projection schedule tasks k url topics Connecting Hk
              (nth_error_tasks k _ Hk)) as [Hev _].
  rewrite Hev in Hin.
  assert (Hout : In obj (output (fst (run json_dumps json_loads url topics woo_key woo_secret
                                          Connecting (answers_to k schedule))))).
  { clear - Hin. induction (fst (run json_dumps json_loads url topics woo_key woo_secret
                                     Connecting (answers_to k schedule))) as [| ev tr IH];
      [destruct Hin |].
    destruct Hin as [-> | Hin]; [now left |].
    destruct ev; simpl; auto. }
  rewrite run_output_forwarded in Hout.
  unfold forwarded in Hout. apply in_flat_map in Hout.
  destruct Hout as [ev [Hev' Hobj]].
  destruct ev; try destruct Hobj.
  destruct (json_loads frame) as [obj' |] eqn:Hl; [| destruct Hobj].
  destruct (is_ping obj') eqn:Hping; [destruct Hobj |].
  destruct Hobj as [<- | []].
  split; [exact Hping |].
  exists k, url, topics, frame. auto.
Qed.

(** ** The consumer *)

Lemma session_run_cons (ses : session) (a : action) (actions : list action) :
  session_run ses (a :: actions) = session_run (act ses a) actions.
Proof. reflexivity. Qed.

Lemma session_run_app (ses : session) (actions more : list action) :
  session_run ses (actions ++ more) = session_run (session_run ses actions) more.
Proof. apply fold_left_app. Qed.

(** The generator has not started exactly when the worker has not, and it
    is finished only when the worker has ended. *)
Lemma act_coherent (ses : session) (a : action) :
  (consumer ses = NotStarted <-> worker ses = Unstarted)
  /\ (consumer ses = Finished -> worker ses = Ended) ->
  (consumer (act ses a) = NotStarted <-> worker (act ses a) = Unstarted)
  /\ (consumer (act ses a) = Finished -> worker (act ses a) = Ended).
Proof.
  intros [Hstart Hend].
  destruct a; unfold act;
    destruct (consumer ses) eqn:Hc; destruct (worker ses) eqn:Hw;
    try destruct (msg_queue ses); cbn [consumer worker];
    rewrite ?Hc, ?Hw;
    (split; [split |]); try discriminate; try reflexivity;
    intros _;
    try (now apply Hstart); try (now apply Hend);
    try (assert (H : Unstarted = Unstarted) by reflexivity; apply Hstart in H; discriminate H);
    try (assert (H : NotStarted = NotStarted) by reflexivity; apply Hstart in H; discriminate H);
    try (assert (H : Finished = Finished) by reflexivity; apply Hend in H; discriminate H).
Qed.

Lemma session_run_coherent (actions : list action) (ses : session) :
  (consumer ses = NotStarted <-> worker ses = Unstarted)
  /\ (consumer ses = Finished -> worker ses = Ended) ->
  (consumer (session_run ses actions) = NotStarted <-> worker (session_run ses actions) = Unstarted)
  /\ (consumer (session_run ses actions) = Finished -> worker (session_run ses actions) = Ended).
Proof.
  revert ses. induction actions as [| a actions IH]; intros ses H; [exact H |].
  rewrite session_run_cons. apply IH, act_coherent, H.
Qed.

Lemma start_coherent :
  (consumer start = NotStarted <-> worker start = Unstarted)
  /\ (consumer start = Finished -> worker start = Ended).
Proof. simpl. split; [tauto | discriminate]. Qed.

(** Nothing is lost between a listener and the consumer. *)
Lemma act_conserved (ses : session) (a : action) :
  (yielded ses ++ msg_queue ses)%list = output (map snd (history ses)) ->
  (yielded (act ses a) ++ msg_queue (act ses a))%list = output (map snd (history (act ses a))).
Proof.
  intros H. destruct a; unfold act;
    try (destruct (consumer ses); try destruct (worker ses); try exact H;
         destruct (msg_queue ses) as [| obj rest] eqn:Hq;
         cbn [yielded msg_queue history]; rewrite <- H; try reflexivity;
         now rewrite <- app_assoc).
  destruct (worker ses); try exact H.
  cbn [yielded msg_queue history].
  now rewrite map_app, output_app, <- H, app_assoc.
Qed.

Lemma session_run_conserved (actions : list action) (ses : session) :
  (yielded ses ++ msg_queue ses)%list = output (map snd (history ses)) ->
  (yielded (session_run ses actions) ++ msg_queue (session_run ses actions))%list
  = output (map snd (history (session_run ses actions))).
Proof.
  revert ses. induction actions as [| a actions IH]; intros ses H; [exact H |].
  rewrite session_run_cons. apply IH, act_conserved, H.
Qed.

(** What the listeners have done is [asyncio.gather] on the answers that were
    delivered. *)
Lemma session_run_history (actions : list action) (ses : session) :
  (consumer ses = NotStarted <-> worker ses = Unstarted)
  /\ (consumer ses = Finished -> worker ses = Ended) ->
  history (session_run ses actions)
  = (history ses ++ fst (gather (running ses) (delivered (worker ses) actions)))%list.
Proof.
  revert ses. induction actions as [| a actions IH]; intros ses Hco.
  - simpl. now rewrite app_nil_r.
  - rewrite session_run_cons, (IH _ (act_coherent ses a Hco)).
    destruct Hco as [Hstart Hend].
    destruct a; unfold act; simpl delivered.
    + destruct (consumer ses) eqn:Hc; destruct (worker ses) eqn:Hw;
        cbn [history running worker]; rewrite ?Hw; try reflexivity;
        try (assert (H : Unstarted = Unstarted) by reflexivity; apply Hstart in H; discriminate H);
        try (assert (H : NotStarted = NotStarted) by reflexivity; apply Hstart in H; discriminate H).
    + destruct (consumer ses); destruct (worker ses) eqn:Hw;
        cbn [history running worker]; rewrite ?Hw; reflexivity.
    + destruct (consumer ses); destruct (worker ses) eqn:Hw;
        try destruct (msg_queue ses);
        cbn [history running worker]; rewrite ?Hw; reflexivity.
    + destruct (worker ses) eqn:Hw; cbn [history running worker]; rewrite ?Hw;
        try reflexivity.
      rewrite gather_cons. cbn [fst]. now rewrite app_assoc.
    + destruct (worker ses) eqn:Hw; cbn [history running worker]; rewrite ?Hw; reflexivity.
Qed.

(** X16. What [recv_all] has yielded, followed by what is still on the
    queue, is what the listeners have put there, in the same order: the
    generator yields the merged output in arrival order, without loss or
    repetition up to the point it has reached. *)
Theorem yielded_is_prefix_of_output (actions : list action) :
  output (map snd (_all_listeners (delivered Unstarted actions)))
  = (recv_all actions ++ msg_queue (session_run start actions))%list.
Proof.
  unfold recv_all.
  rewrite (session_run_conserved actions start eq_refl).
  rewrite (session_run_history actions start start_coherent).
  reflexivity.
Qed.

Lemma finished_stays (actions : list action) (ses : session) :
  consumer ses = Finished ->
  consumer (session_run ses actions) = Finished
  /\ yielded (session_run ses actions) = yielded ses.
Proof.
  revert ses. induction actions as [| a actions IH]; intros ses Hc; [split; [exact Hc | reflexivity] |].
  rewrite session_run_cons.
  assert (Hact : consumer (act ses a) = Finished /\ yielded (act ses a) = yielded ses).
  { destruct a; unfold act; rewrite ?Hc; try (split; [exact Hc | reflexivity]);
      destruct (worker ses); cbn [consumer yielded]; split; (exact Hc || reflexivity). }
  destruct Hact as [Hc' Hy]. destruct (IH _ Hc') as [Hfin Hyield].
  split; [exact Hfin | now rewrite Hyield].
Qed.

Lemma ended_after_exit (actions : list action) (ses : session) :
  worker (session_run ses actions) = Ended -> worker ses = Ended \/ In Exit actions.
Proof.
  revert ses. induction actions as [| a actions IH]; intros ses H; [now left |].
  rewrite session_run_cons in H. destruct (IH _ H) as [Hw | Hin]; [| right; now right].
  destruct a; unfold act in Hw;
    try (right; now left);
    destruct (consumer ses); destruct (worker ses) eqn:Hws;
    try destruct (msg_queue ses); cbn [worker] in Hw; rewrite ?Hws in Hw;
    (discriminate Hw || (left; reflexivity)).
Qed.

(** X17. The stream of [recv_all] ends only after the worker thread has
    ended, and then for good: nothing is yielded afterwards, even if messages
    are still on the queue. *)
Theorem stream_ends_with_worker (actions : list action) :
  consumer (session_run start actions) = Finished ->
  In Exit actions
  /\ worker (session_run start actions) = Ended
  /\ forall more, recv_all (actions ++ more) = recv_all actions.
Proof.
  intros Hfin.
  assert (Hw : worker (session_run start actions) = Ended)
    by (apply (session_run_coherent actions start start_coherent), Hfin).
  split; [| split; [exact Hw |]].
  - destruct (ended_after_exit actions start Hw) as [H | H]; [discriminate H | exact H].
  - intros more. unfold recv_all. rewrite session_run_app.
    apply (finished_stays more _ Hfin).
Qed.

End AggregatorFacts.

Lemma gather_no_items (json_dumps : json -> string) (json_loads : string -> option json)
      (woo_key woo_secret : option string) (running : list state)
      (schedule : list (nat * io)) :
  fst (gather json_dumps json_loads [] woo_key woo_secret running schedule) = [].
Proof.
  revert running. induction schedule as [| [k i] schedule IH]; intros running; [reflexivity |].
  rewrite gather_cons. cbn [fst].
  assert (H : resume json_dumps json_loads [] woo_key woo_secret running k i = ([], running))
    by (unfold resume; now destruct k).
  rewrite H. apply IH.
Qed.

(** X18. With no endpoint configured [recv_all] never yields anything. *)
Theorem no_endpoints_no_output (json_dumps : json -> string)
        (json_loads : string -> option json) (woo_key woo_secret : option string)
        (actions : list action) :
  recv_all json_dumps json_loads [] woo_key woo_secret actions = [].
Proof.
  unfold recv_all.
  assert (H := session_run_conserved json_dumps json_loads [] woo_key woo_secret
                 actions (start []) eq_refl).
  rewrite (session_run_history json_dumps json_loads [] woo_key woo_secret
             actions (start []) (start_coherent [])) in H.
  simpl history in H. rewrite gather_no_items in H.
  apply app_eq_nil in H. exact (proj1 H).
Qed.

(** ** The further properties against the scripted server *)

Lemma listener_never_stops_example :
  snd (run example_dumps example_loads stream_url ["SPOT_BTC_USDT@trade"] None None
           Connecting (garbage_script ++ [closed_read]))
  <> Cancelled
  /\ List.length (filter is_io (_listener example_dumps example_loads stream_url
                                          ["SPOT_BTC_USDT@trade"] None None
                                          (garbage_script ++ [closed_read])))
     = List.length (garbage_script ++ [closed_read]).
Proof.
  apply (listener_never_stops example_dumps example_loads stream_url
           ["SPOT_BTC_USDT@trade"] None None (garbage_script ++ [closed_read])).
  repeat (constructor; [discriminate |]). constructor.
Defined.

Lemma cancellation_is_final_example :
  snd (run example_dumps example_loads stream_url ["SPOT_BTC_USDT@trade"] None None
           Connecting (ping_script ++ cancel :: ping_script))
  = Cancelled.
Proof.
  apply (cancellation_is_final example_dumps example_loads stream_url
           ["SPOT_BTC_USDT@trade"] None None ping_script cancel ping_script).
  reflexivity.
Defined.

Lemma credentials_unused_off_private_example :
  _listener example_dumps example_loads stream_url ["SPOT_BTC_USDT@trade"]
            None None ping_script
  = _listener example_dumps example_loads stream_url ["SPOT_BTC_USDT@trade"]
              (Some "key") (Some "secret") ping_script.
Proof.
  apply (credentials_unused_off_private example_dumps example_loads stream_url
           ["SPOT_BTC_USDT@trade"] None None (Some "key") (Some "secret") ping_script).
  reflexivity.
Defined.

Lemma undecodable_frame_restarts_example :
  exists post',
    [LogRestart JSONDecodeError; Connected stream_url] = LogRestart JSONDecodeError :: post'
    /\ starts_with_connect stream_url post'
    /\ forwarded example_loads [Received "not json"] = [].
Proof.
  apply (undecodable_frame_restarts example_dumps example_loads stream_url
           ["SPOT_BTC_USDT@trade"] None None garbage_script
           [ Connected stream_url;
             Sent (example_dumps (subscribe_object "SPOT_BTC_USDT@trade")) ]
           "not json"
           [LogRestart JSONDecodeError; Connected stream_url]).
  - reflexivity.
  - reflexivity.
Defined.


Lemma listeners_are_independent_example :
  events_of 1 (_all_listeners example_dumps example_loads two_endpoints
                              (Some "key") (Some "secret") interleaved)
  = _listener example_dumps example_loads private_url ["positioninfo"]
              (Some "key") (Some "secret") (answers_to 1 interleaved).
Proof.
  apply (listeners_are_independent example_dumps example_loads two_endpoints
           (Some "key") (Some "secret") interleaved 1 private_url ["positioninfo"]).
  reflexivity.
Defined.

Lemma merged_output_is_received_example :
  is_ping trade_object = false
  /\ exists k url topics msg,
       nth_error two_endpoints k = Some (url, topics)
       /\ In (Received msg)
             (_listener example_dumps example_loads url topics (Some "key") (Some "secret")
                        (answers_to k interleaved))
       /\ example_loads msg = Some trade_object.
Proof.
  apply (merged_output_is_received example_dumps example_loads two_endpoints
           (Some "key") (Some "secret") interleaved trade_object).
  vm_compute. now left.
Defined.

Lemma stream_ends_with_worker_example :
  In Exit late_consumer
  /\ worker (session_run example_dumps example_loads
                         [(stream_url, ["SPOT_BTC_USDT@trade"])] None None
                         (start [(stream_url, ["SPOT_BTC_USDT@trade"])]) late_consumer)
     = Ended
  /\ forall more,
       recv_all example_dumps example_loads [(stream_url, ["SPOT_BTC_USDT@trade"])] None None
                (late_consumer ++ more)
       = recv_all example_dumps example_loads [(stream_url, ["SPOT_BTC_USDT@trade"])] None None
                  late_consumer.
Proof.
  apply (stream_ends_with_worker example_dumps example_loads
           [(stream_url, ["SPOT_BTC_USDT@trade"])] None None late_consumer).
  reflexivity.
Defined.

(** The trade that was on the queue when the worker ended is never
    yielded. *)
Example queued_message_is_dropped :
  msg_queue (session_run example_dumps example_loads
                         [(stream_url, ["SPOT_BTC_USDT@trade"])] None None
                         (start [(stream_url, ["SPOT_BTC_USDT@trade"])]) late_consumer)
  = [trade_object]
  /\ recv_all example_dumps example_loads [(stream_url, ["SPOT_BTC_USDT@trade"])] None None
              late_consumer
     = [].
Proof. split; reflexivity. Qed.
